(** * CairoSVG text drawers ([cairosvg/text.py]): a shallow embedding

    Python numbers (ints and floats alike) are idealised as real numbers:
    the layout engine only adds, subtracts, halves and compares them, and the
    path sampler additionally uses [sqrt], [cos], [sin] and [atan2].
    Python exceptions are explicit: every operation that can raise returns an
    [outcome]. *)

From Stdlib Require Import Reals Lra List String Ascii Bool Arith Lia.
Import ListNotations.
Open Scope R_scope.

(** ** Python exceptions *)

Inductive exn : Type :=
| UnboundLocalError
| AttributeError
| ValueError
| IndexError.

Inductive outcome (A : Type) : Type :=
| Done (a : A)
| Raise (e : exn).
Arguments Done {A} a.
Arguments Raise {A} e.

Definition bind {A B : Type} (m : outcome A) (k : A -> outcome B) : outcome B :=
  match m with
  | Done a => k a
  | Raise e => Raise e
  end.

Notation "x <- m ;; k" := (bind m (fun x => k))
  (at level 61, m at next level, right associativity).

Fixpoint mapM {A B : Type} (f : A -> outcome B) (l : list A) : outcome (list B) :=
  match l with
  | [] => Done []
  | a :: l' => b <- f a ;; bs <- mapM f l' ;; Done (b :: bs)
  end.

(** ** Python truthiness of numbers *)

Definition is_zero (r : R) : bool := if Req_dec_T r 0 then true else false.

(** [v or 0] where [v] is a number or [None]. *)
Definition or_zero (v : option R) : R :=
  match v with
  | Some r => if is_zero r then 0 else r
  | None => 0
  end.

(** [if v:] where [v] is a number or [None]. *)
Definition truthy (v : option R) : bool :=
  match v with
  | Some r => negb (is_zero r)
  | None => false
  end.

Definition point : Type := (R * R)%type.

(** ** Geometry helpers ([cairosvg/helpers.py]) *)

Module Helpers.

(** Modelled from the spec: [helpers.distance] is missing from the sources;
    the path sampler "sums Euclidean distances between consecutive points". *)
Definition distance (x1 y1 x2 y2 : R) : R :=
  sqrt ((x2 - x1) * (x2 - x1) + (y2 - y1) * (y2 - y1)).

(** [math.atan2] on real numbers (no signed zeros): the angle in (-PI, PI]
    of the vector [(x, y)], and 0 for the null vector. *)
Definition atan2 (y x : R) : R :=
  if Rlt_dec 0 x then atan (y / x)
  else if Rlt_dec x 0 then
    if Rle_dec 0 y then atan (y / x) + PI else atan (y / x) - PI
  else if Rlt_dec 0 y then PI / 2
  else if Rlt_dec y 0 then - (PI / 2)
  else 0.

(** Modelled from the spec: [helpers.point_angle] is missing from the sources;
    it is the "current segment's direction (angle between its two
    endpoints)", the angle of the vector from the first point to the second. *)
Definition point_angle (cx cy px py : R) : R := atan2 (py - cy) (px - cx).

End Helpers.
Import Helpers.

(** ** Path sampler *)

(** Items of a flattened cairo path.  The sampler looks at [PATH_MOVE_TO] and
    [PATH_LINE_TO] only and walks over anything else. *)
Inductive path_item : Type :=
| MoveTo (p : point)
| LineTo (p : point)
| ClosePath.

Definition path : Type := list path_item.

(** The [for item in path] loop of [path_length]; [old_point] is unbound
    ([None]) until the first [MoveTo]. *)
Fixpoint path_length_loop (items : path) (total_length : R)
    (old_point : option point) : outcome R :=
  match items with
  | [] => Done total_length
  | MoveTo p :: rest => path_length_loop rest total_length (Some p)
  | LineTo new_point :: rest =>
      match old_point with
      | None => Raise UnboundLocalError
      | Some old =>
          let length :=
            distance (fst old) (snd old) (fst new_point) (snd new_point) in
          path_length_loop rest (total_length + length) (Some new_point)
      end
  | ClosePath :: rest => path_length_loop rest total_length old_point
  end.

Definition path_length (p : path) : outcome R := path_length_loop p 0 None.

(** The loop of [point_following_path]; falling off the end of the loop is
    Python's implicit [return None]. *)
Fixpoint point_following_path_loop (items : path) (width total_length : R)
    (old_point : option point) : outcome (option point) :=
  match items with
  | [] => Done None
  | MoveTo p :: rest =>
      point_following_path_loop rest width total_length (Some p)
  | LineTo new_point :: rest =>
      match old_point with
      | None => Raise UnboundLocalError
      | Some old =>
          let length :=
            distance (fst old) (snd old) (fst new_point) (snd new_point) in
          let total_length := total_length + length in
          if Rlt_dec total_length width then
            point_following_path_loop rest width total_length (Some new_point)
          else
            let length := length - (total_length - width) in
            let angle :=
              point_angle (fst old) (snd old) (fst new_point) (snd new_point) in
            Done (Some (cos angle * length + fst old,
                        sin angle * length + snd old))
      end
  | ClosePath :: rest =>
      point_following_path_loop rest width total_length old_point
  end.

Definition point_following_path (p : path) (width : R) : outcome (option point) :=
  point_following_path_loop p width 0 None.

(** Vocabulary for the statements about paths. *)

Definition item_point (i : path_item) : option point :=
  match i with
  | MoveTo p | LineTo p => Some p
  | ClosePath => None
  end.

Fixpoint first_point (items : path) : option point :=
  match items with
  | [] => None
  | i :: rest =>
      match item_point i with
      | Some p => Some p
      | None => first_point rest
      end
  end.

Fixpoint last_point (items : path) : option point :=
  match items with
  | [] => None
  | i :: rest =>
      match last_point rest with
      | Some p => Some p
      | None => item_point i
      end
  end.

Definition is_line (i : path_item) : bool :=
  match i with LineTo _ => true | _ => false end.

Definition has_line (items : path) : bool := existsb is_line items.


(** A single sub-path: one [MoveTo] followed by [LineTo]s only. *)
Definition polyline (p0 : point) (pts : list point) : path :=
  MoveTo p0 :: map LineTo pts.

(** The end-point behaviour expected of the sampler on a path [p]: the path
    has a length [L], distance 0 gives the first point, distance [L] the last
    point, and [None] is the answer exactly for the targets beyond [L]. *)
Definition samples_end_to_end (p : path) : Prop :=
  exists L,
    path_length p = Done L /\
    point_following_path p 0 = Done (first_point p) /\
    point_following_path p L = Done (last_point p) /\
    (forall w, L < w -> point_following_path p w = Done None) /\
    (forall w, point_following_path p w = Done None <-> L < w).

(** ** Python strings

    Strings are sequences of one-byte characters; the string methods below
    follow Python on ASCII text. *)

Open Scope string_scope.
Open Scope list_scope.

Definition nonempty (s : string) : bool :=
  match s with EmptyString => false | _ => true end.

(** [v or default] and [if v:] for a string that may be [None]. *)
Definition str_truthy (v : option string) : bool :=
  match v with Some s => nonempty s | None => false end.

Definition str_or (v : option string) (default : string) : string :=
  if str_truthy v then match v with Some s => s | None => default end
  else default.

Definition is_digit_char (c : ascii) : bool :=
  let n := nat_of_ascii c in (48 <=? n)%nat && (n <=? 57)%nat.

Fixpoint all_chars (f : ascii -> bool) (s : string) : bool :=
  match s with
  | EmptyString => true
  | String c s' => f c && all_chars f s'
  end.

(** [str.isdigit]: at least one character, and digits only. *)
Definition isdigit (s : string) : bool := nonempty s && all_chars is_digit_char s.

(** [int(s)] for a string of decimal digits, most significant first. *)
Fixpoint int_of_digits_from (acc : nat) (s : string) : nat :=
  match s with
  | EmptyString => acc
  | String c s' => int_of_digits_from (10 * acc + (nat_of_ascii c - 48)) s'
  end.

Definition int_of_digits (s : string) : nat := int_of_digits_from 0 s.

(** [float(s)] for a string of decimal digits. *)
Definition float_of_digits (s : string) : R := INR (int_of_digits s).

Definition upper_char (c : ascii) : ascii :=
  let n := nat_of_ascii c in
  if (97 <=? n)%nat && (n <=? 122)%nat then ascii_of_nat (n - 32) else c.

Fixpoint upper (s : string) : string :=
  match s with
  | EmptyString => EmptyString
  | String c s' => String (upper_char c) (upper s')
  end.

(** [s.split(sep)] for a one-character separator: never an empty list. *)
Fixpoint split (sep : ascii) (s : string) : list string :=
  match s with
  | EmptyString => [EmptyString]
  | String c s' =>
      if Ascii.eqb c sep then EmptyString :: split sep s'
      else
        match split sep s' with
        | [] => [String c EmptyString]
        | w :: ws => String c w :: ws
        end
  end.

Fixpoint lstrip (drop : ascii -> bool) (s : string) : string :=
  match s with
  | EmptyString => EmptyString
  | String c s' => if drop c then lstrip drop s' else s
  end.

Fixpoint rstrip (drop : ascii -> bool) (s : string) : string :=
  match s with
  | EmptyString => EmptyString
  | String c s' =>
      match rstrip drop s' with
      | EmptyString => if drop c then EmptyString else String c EmptyString
      | t => String c t
      end
  end.

Definition strip_with (drop : ascii -> bool) (s : string) : string :=
  lstrip drop (rstrip drop s).

(** Characters for which [str.isspace] holds among the first 128. *)
Definition is_space_char (c : ascii) : bool :=
  let n := nat_of_ascii c in
  ((9 <=? n)%nat && (n <=? 13)%nat) || ((28 <=? n)%nat && (n <=? 32)%nat).

(** [s.strip()]. *)
Definition strip (s : string) : string := strip_with is_space_char s.

(** [s.isspace()]. *)
Definition isspace (s : string) : bool := nonempty s && all_chars is_space_char s.

(** The characters of a string, each as a one-character string. *)
Fixpoint letters (s : string) : list string :=
  match s with
  | EmptyString => []
  | String c s' => String c EmptyString :: letters s'
  end.

(** ** Fonts and the drawing context *)

Inductive font_slant : Type :=
| FONT_SLANT_NORMAL
| FONT_SLANT_ITALIC
| FONT_SLANT_OBLIQUE.

Inductive font_weight : Type :=
| FONT_WEIGHT_NORMAL
| FONT_WEIGHT_BOLD.

(** [getattr(cairo, name, default)] for the names built by
    [initial_context_font]: the cairo module has three [FONT_SLANT_*] and two
    [FONT_WEIGHT_*] constants. *)
Definition getattr_font_slant (name : string) (default : font_slant) : font_slant :=
  if name =? "FONT_SLANT_NORMAL" then FONT_SLANT_NORMAL
  else if name =? "FONT_SLANT_ITALIC" then FONT_SLANT_ITALIC
  else if name =? "FONT_SLANT_OBLIQUE" then FONT_SLANT_OBLIQUE
  else default.

Definition getattr_font_weight (name : string) (default : font_weight) : font_weight :=
  if name =? "FONT_WEIGHT_NORMAL" then FONT_WEIGHT_NORMAL
  else if name =? "FONT_WEIGHT_BOLD" then FONT_WEIGHT_BOLD
  else default.

(** The font selected in a drawing context. *)
Record FontSpec : Type := {
  family : string;
  slant : font_slant;
  weight : font_weight;
  size_of_font : R
}.

(** The six numbers of a cairo text-extents answer, in tuple order. *)
Record extents : Type := {
  x_bearing : R;
  y_bearing : R;
  ext_width : R;
  ext_height : R;
  x_advance : R;
  y_advance : R
}.

(** Calls made on the cairo context.  Queries (text and font extents) leave
    no trace. *)
Inductive context_call : Type :=
| select_font_face (fam : string) (sl : font_slant) (w : font_weight)
| set_font_size (sz : R)
| new_path
| save
| restore
| translate (tx ty : R)
| rotate (angle : R)
| move_to (x y : R)
| rel_move_to (dx dy : R)
| show_text (s : string)
| text_path (s : string).

(** A cairo context: the current font, the fonts put aside by [save], and the
    calls received so far, oldest first. *)
Record Context : Type := {
  font : FontSpec;
  saved : list FontSpec;
  calls : list context_call
}.

Definition log (c : context_call) (ctx : Context) : Context :=
  {| font := font ctx; saved := saved ctx; calls := calls ctx ++ [c] |}.

Definition ctx_save (ctx : Context) : Context :=
  {| font := font ctx; saved := font ctx :: saved ctx;
     calls := calls ctx ++ [save] |}.

Definition ctx_restore (ctx : Context) : Context :=
  match saved ctx with
  | f :: fs => {| font := f; saved := fs; calls := calls ctx ++ [restore] |}
  | [] => log restore ctx
  end.

Definition ctx_select_font_face (fam : string) (sl : font_slant) (w : font_weight)
    (ctx : Context) : Context :=
  {| font := {| family := fam; slant := sl; weight := w;
                size_of_font := size_of_font (font ctx) |};
     saved := saved ctx;
     calls := calls ctx ++ [select_font_face fam sl w] |}.

Definition ctx_set_font_size (sz : R) (ctx : Context) : Context :=
  {| font := {| family := family (font ctx); slant := slant (font ctx);
                weight := weight (font ctx); size_of_font := sz |};
     saved := saved ctx;
     calls := calls ctx ++ [set_font_size sz] |}.


(** A call that paints a glyph. *)
Definition is_glyph (c : context_call) : bool :=
  match c with
  | show_text _ | text_path _ => true
  | _ => false
  end.

Definition glyphs (ctx : Context) : list context_call := filter is_glyph (calls ctx).

(** ** Bounding boxes ([cairosvg/bounding_box.py]) *)

(** Modelled from the spec: the bounding-box helpers are missing from the
    sources.  A box is "either the empty sentinel or a pair of (min, max) 2-D
    extents"; extending it "is a no-op on empty input points and otherwise
    grows the box to cover new points"; a box is stored when it is
    "non-empty". *)
Inductive bounding_box : Type :=
| EMPTY_BOUNDING_BOX
| Box (lo hi : point).

Definition cover (bb : bounding_box) (p : point) : bounding_box :=
  match bb with
  | EMPTY_BOUNDING_BOX => Box p p
  | Box lo hi =>
      Box (Rmin (fst lo) (fst p), Rmin (snd lo) (snd p))
          (Rmax (fst hi) (fst p), Rmax (snd hi) (snd p))
  end.

Definition extend_bounding_box (bb : bounding_box) (points : list point)
    : bounding_box :=
  fold_left cover points bb.

Definition is_valid_bounding_box (bb : bounding_box) : bool :=
  match bb with
  | EMPTY_BOUNDING_BOX => false
  | Box _ _ => true
  end.

(** ** Document nodes *)

(** What a node carries itself: its tag, its text, its attribute mapping,
    the answer of its [get_href()] method, and the box [text] stores under
    the key ['text_bounding_box']. *)
Record node_data : Type := {
  tag : string;
  text_of : option string;
  attrib : list (string * string);
  href : option string;
  text_bounding_box : option bounding_box
}.

#[warnings="-register-all"] Inductive tree : Type :=
| Tree (d : node_data) (children : list tree).

Definition data (t : tree) : node_data := match t with Tree d _ => d end.
Definition subtrees (t : tree) : list tree := match t with Tree _ cs => cs end.

(** One step from a node up to its parent: the parent's own data and the
    siblings on either side. *)
Record crumb : Type := {
  up_data : node_data;
  lefts : list tree;
  rights : list tree
}.

(** A node object: a subtree together with the way up to the root of its
    document, nearest ancestor first.  This gives every node its [parent]
    and its [children]. *)
Record node : Type := {
  focus : tree;
  above : list crumb
}.

Definition plug (c : crumb) (t : tree) : tree :=
  Tree (up_data c) (lefts c ++ t :: rights c).

(** [node.parent]: [None] at the root. *)
Definition parent (n : node) : option node :=
  match above n with
  | [] => None
  | c :: cs => Some {| focus := plug c (focus n); above := cs |}
  end.

(** The children of a node, as node objects, given the siblings [ls] already
    passed. *)
Fixpoint children_from (d : node_data) (up : list crumb) (ls rs : list tree)
    : list node :=
  match rs with
  | [] => []
  | t :: rs' =>
      {| focus := t;
         above := {| up_data := d; lefts := ls; rights := rs' |} :: up |}
      :: children_from d up (ls ++ [t]) rs'
  end.

(** [node.children]. *)
Definition children (n : node) : list node :=
  children_from (data (focus n)) (above n) [] (subtrees (focus n)).

(** [node.tag], [node.text], [node.get(key)], [key in node]. *)
Definition node_tag (n : node) : string := tag (data (focus n)).
Definition node_text (n : node) : option string := text_of (data (focus n)).

Fixpoint lookup (key : string) (l : list (string * string)) : option string :=
  match l with
  | [] => None
  | (k, v) :: l' => if k =? key then Some v else lookup key l'
  end.

Definition get (n : node) (key : string) : option string :=
  lookup key (attrib (data (focus n))).

Definition contains (n : node) (key : string) : bool :=
  match get n key with Some _ => true | None => false end.

(** Where a node sits in its document: the number of left siblings at each
    level, nearest level first.  Two node objects of one document are the
    same object ([is]) exactly when they sit at the same place. *)
Definition address (n : node) : list nat :=
  map (fun c => List.length (lefts c)) (above n).

Definition same_node (a b : node) : bool :=
  if list_eq_dec Nat.eq_dec (address a) (address b) then true else false.

(** [iter_nodes]: the node, then the nodes below each child in turn. *)
Fixpoint iter_tree (t : tree) (up : list crumb) {struct t} : list node :=
  match t with
  | Tree d cs =>
      {| focus := t; above := up |} ::
      (fix iter_children (ls rs : list tree) {struct rs} : list node :=
         match rs with
         | [] => []
         | c :: rs' =>
             iter_tree c ({| up_data := d; lefts := ls; rights := rs' |} :: up)
             ++ iter_children (ls ++ [c]) rs'
         end) [] cs
  end.

Definition iter_nodes (n : node) : list node := iter_tree (focus n) (above n).

(** The inner loop of [iter_tree], by name: the nodes below the children
    [rs] of a node with data [d], [ls] being the children already passed. *)
Definition iter_forest (d : node_data) (up : list crumb)
    : list tree -> list tree -> list node :=
  fix iter_children (ls rs : list tree) {struct rs} : list node :=
    match rs with
    | [] => []
    | c :: rs' =>
        iter_tree c ({| up_data := d; lefts := ls; rights := rs' |} :: up)
        ++ iter_children (ls ++ [c]) rs'
    end.

(** A node and its ancestors, nearest first. *)
Fixpoint ancestry (t : tree) (up : list crumb) : list node :=
  {| focus := t; above := up |} ::
  match up with
  | [] => []
  | c :: cs => ancestry (plug c t) cs
  end.

Definition is_text_node (n : node) : bool := node_tag n =? "text".

(** The nearest node tagged ['text'] among a node and its ancestors, and the
    node itself when there is none. *)
Definition nearest_text_node (n : node) : node :=
  match find is_text_node (ancestry (focus n) (above n)) with
  | Some a => a
  | None => n
  end.

Definition sum_R (l : list R) : R := fold_right Rplus 0 l.

(** ** The rendering surface *)

Record Surface : Type := {
  context : Context;
  font_size : R;
  cursor_position : point;
  cursor_d_position : point;
  text_path_width : R;
  stroke_and_fill : bool;
  (** [surface.paths]: the registered path nodes, each given by the flattened
      path that drawing it leaves in the context. *)
  paths : list (string * path)
}.

Definition with_context (s : Surface) (c : Context) : Surface :=
  {| context := c; font_size := font_size s;
     cursor_position := cursor_position s;
     cursor_d_position := cursor_d_position s;
     text_path_width := text_path_width s;
     stroke_and_fill := stroke_and_fill s; paths := paths s |}.

Definition with_cursor_position (s : Surface) (p : point) : Surface :=
  {| context := context s; font_size := font_size s;
     cursor_position := p;
     cursor_d_position := cursor_d_position s;
     text_path_width := text_path_width s;
     stroke_and_fill := stroke_and_fill s; paths := paths s |}.

Definition with_cursor_d_position (s : Surface) (p : point) : Surface :=
  {| context := context s; font_size := font_size s;
     cursor_position := cursor_position s;
     cursor_d_position := p;
     text_path_width := text_path_width s;
     stroke_and_fill := stroke_and_fill s; paths := paths s |}.

Definition with_text_path_width (s : Surface) (w : R) : Surface :=
  {| context := context s; font_size := font_size s;
     cursor_position := cursor_position s;
     cursor_d_position := cursor_d_position s;
     text_path_width := w;
     stroke_and_fill := stroke_and_fill s; paths := paths s |}.

Definition with_stroke_and_fill (s : Surface) (b : bool) : Surface :=
  {| context := context s; font_size := font_size s;
     cursor_position := cursor_position s;
     cursor_d_position := cursor_d_position s;
     text_path_width := text_path_width s;
     stroke_and_fill := b; paths := paths s |}.

Definition call (c : context_call) (s : Surface) : Surface :=
  with_context s (log c (context s)).

Fixpoint lookup_path (key : string) (l : list (string * path)) : option path :=
  match l with
  | [] => None
  | (k, v) :: l' => if k =? key then Some v else lookup_path key l'
  end.

(** ** Collaborators outside the text drawers *)

(** What [size] measures a length against: the axis names ['x'], ['y'], the
    default ['xy'], or a reference length. *)
Inductive size_reference : Type :=
| ref_x
| ref_y
| ref_xy
| ref_length (l : R).

Class Collaborators : Type := {
  (** cairo: [context.text_extents(text)] under the context's font *)
  text_extents : FontSpec -> option string -> extents;
  (** cairo: [context.font_extents()], as
      (ascent, descent, height, max_x_advance, max_y_advance) *)
  font_extents : FontSpec -> R * R * R * R * R;
  (** helpers: [size(surface, string, reference)], the length resolver *)
  size : Surface -> option string -> size_reference -> outcome R;
  (** helpers: [normalize(string)] *)
  normalize : string -> string;
  (** url: [parse_url(href).fragment] *)
  url_fragment : string -> string;
  (** the builtin [float(string)]; [None] stands for [ValueError] *)
  float_of_string : string -> option R
}.

(** ** Font context setup *)

(** How an f-string prints an attribute that may be [None]. *)
Definition format (v : option string) : string :=
  match v with Some s => s | None => "None" end.

Definition is_quote_or_space (c : ascii) : bool :=
  let n := nat_of_ascii c in
  (n =? 34)%nat || (n =? 39)%nat || (n =? 32)%nat.

(** The [if] that turns a heavy numeric weight into ['bold']. *)
Definition coerce_font_weight (node_font_weight : option string) : option string :=
  match node_font_weight with
  | Some w =>
      if nonempty w && isdigit w && (550 <=? int_of_digits w)%nat
      then Some "bold" else Some w
  | None => None
  end.

(** The size handed to [set_font_size]. *)
Definition resolve_font_size (node_font_size : option string) (default : R) : R :=
  match node_font_size with
  | Some sz => if nonempty sz && isdigit sz then float_of_digits sz else default
  | None => default
  end.

(** [initial_context_font(surface, node, context)], always called on the
    surface's own context. *)
Definition initial_context_font (surface : Surface) (n : node) : Surface :=
  let font_family :=
    strip_with is_quote_or_space
      (hd EmptyString (split "," (str_or (get n "font-family") "sans-serif"))) in
  let font_style :=
    getattr_font_slant (upper ("font_slant_" ++ format (get n "font-style")))
      FONT_SLANT_NORMAL in
  let node_font_weight := coerce_font_weight (get n "font-weight") in
  let font_weight_ :=
    getattr_font_weight (upper ("font_weight_" ++ format node_font_weight))
      FONT_WEIGHT_NORMAL in
  let ctx := ctx_select_font_face font_family font_style font_weight_
               (context surface) in
  let font_size_ := resolve_font_size (get n "font-size") (font_size surface) in
  with_context surface (ctx_set_font_size font_size_ ctx).

Section TextDrawers.

Context {env : Collaborators}.

(** ** Text extent aggregator *)

(** [with surface.context as context] saves the context on entry and
    restores it on exit. *)
Definition get_single_node_text_extends (surface : Surface) (n : node)
    : extents * Surface :=
  let surface := with_context surface (ctx_save (context surface)) in
  let surface := initial_context_font surface n in
  let result := text_extents (font (context surface)) (node_text n) in
  (result, with_context surface (ctx_restore (context surface))).

(** The [while] loop of [get_node_text_extents]: up from the node until a
    ['text'] tag or the root. *)
Fixpoint climb (t : tree) (up : list crumb) : node :=
  match up with
  | c :: cs =>
      if negb (tag (data t) =? "text") then climb (plug c t) cs
      else {| focus := t; above := up |}
  | [] => {| focus := t; above := [] |}
  end.

Definition enclosing_text_node (n : node) : node :=
  let parent_text_node := climb (focus n) (above n) in
  if negb (same_node parent_text_node n)
     && negb (node_tag parent_text_node =? "text")
  then n else parent_text_node.

(** One turn of the [for sub_node in iter_nodes(...)] loop; the state is the
    surface and [(x_bearing, y_bearing, width, height)]. *)
Definition measure_step (n : node) (acc : Surface * (R * R * R * R))
    (sub_node : node) : Surface * (R * R * R * R) :=
  let '(surface, (xb, yb, w, h)) := acc in
  let '(e, surface) := get_single_node_text_extends surface sub_node in
  if same_node sub_node n
  then (surface, (x_bearing e, y_bearing e, w + ext_width e, ext_height e))
  else (surface, (xb, yb, w + ext_width e, h)).

Definition get_node_text_extents (surface : Surface) (n : node)
    : extents * Surface :=
  let parent_text_node := enclosing_text_node n in
  let '(surface, (xb, yb, w, h)) :=
    fold_left (measure_step n) (iter_nodes parent_text_node)
      (surface, (0, 0, 0, 0)) in
  ({| x_bearing := xb; y_bearing := yb; ext_width := w; ext_height := h;
      x_advance := w - xb; y_advance := h - yb |}, surface).

(** ** Text layout engine *)

(** Modelled from the spec: [helpers.zip_letters] is missing from the
    sources.  It pairs the attribute lists with the characters of the text,
    "producing one LetterPosition per character"; "lists shorter than the text
    are padded with 'unspecified'".  A missing text has no characters. *)
Fixpoint zip_letters (xl yl dxl dyl rl : list R) (word : list string)
    : list ((option R * option R * option R * option R * option R) * string) :=
  match word with
  | [] => []
  | char :: word' =>
      ((hd_error xl, hd_error yl, hd_error dxl, hd_error dyl, hd_error rl), char)
      :: zip_letters (tl xl) (tl yl) (tl dxl) (tl dyl) (tl rl) word'
  end.

Definition letters_of (txt : option string) : list string :=
  match txt with Some s => letters s | None => [] end.

(** [math.radians]. *)
Definition radians (deg : R) : R := deg * PI / 180.

(** [[size(surface, i, ref) for i in normalize(node[key]).strip().split(' ')]]
    when [key in node], and [[]] otherwise. *)
Definition length_list (surface : Surface) (n : node) (key : string)
    (ref : size_reference) : outcome (list R) :=
  match get n key with
  | Some v =>
      mapM (fun i => size surface (Some i) ref) (split " " (strip (normalize v)))
  | None => Done []
  end.

(** The [rotate] list: [[0]] unless the attribute is there. *)
Definition rotate_list (n : node) : outcome (list R) :=
  match get n "rotate" with
  | Some v =>
      mapM (fun i =>
              if nonempty i then
                match float_of_string i with
                | Some f => Done (radians f)
                | None => Raise ValueError
                end
              else Done 0)
           (split " " (strip (normalize v)))
  | None => Done [0]
  end.

(** [rotate[-1]]. *)
Definition last_of (l : list R) : outcome R :=
  match l with
  | [] => Raise IndexError
  | _ => Done (last l 0)
  end.

(** [len(node.text)], read where the text is known to be there. *)
Definition len (txt : option string) : R :=
  match txt with Some s => INR (String.length s) | None => 0 end.

(** Horizontal anchor alignment. *)
Definition x_align_of (text_anchor : option string) (width x_bearing_ : R)
    (letter_spacing : R) (txt : option string) : R :=
  match text_anchor with
  | Some anchor =>
      if anchor =? "middle" then
        let x_align := - (width / 2 + x_bearing_) in
        if negb (is_zero letter_spacing) && str_truthy txt
        then x_align - (len txt - 1) * letter_spacing / 2
        else x_align
      else if anchor =? "end" then
        let x_align := - (width + x_bearing_) in
        if negb (is_zero letter_spacing) && str_truthy txt
        then x_align - (len txt - 1) * letter_spacing
        else x_align
      else 0
  | None => 0
  end.

Definition is_one_of (v : option string) (names : list string) : bool :=
  match v with
  | Some s => existsb (String.eqb s) names
  | None => false
  end.

(** Vertical baseline alignment, for the font metrics
    [(ascent, descent, max_x_advance, max_y_advance)], the measured
    [y_bearing] and [height], and the three attributes. *)
Definition y_align_of (ascent descent max_x_advance max_y_advance : R)
    (y_bearing_ height : R)
    (display_anchor dominant_baseline alignment_baseline_attr : option string) : R :=
  if (if Rlt_dec 0 max_x_advance then true else false) && is_zero max_y_advance
  then
    let alignment_baseline :=
      if str_truthy dominant_baseline then dominant_baseline
      else alignment_baseline_attr in
    if is_one_of display_anchor ["middle"] then - height / 2 - y_bearing_
    else if is_one_of display_anchor ["top"] then - y_bearing_
    else if is_one_of display_anchor ["bottom"] then - height - y_bearing_
    else if is_one_of alignment_baseline ["central"; "middle"] then
      (ascent + descent) / 2 - descent
    else if is_one_of alignment_baseline
              ["text-before-edge"; "before_edge"; "top"; "hanging"; "text-top"]
    then ascent
    else if is_one_of alignment_baseline
              ["text-after-edge"; "after_edge"; "bottom"; "text-bottom"]
    then - descent
    else 0
  else 0.

(** [node.get_href() or node.parent.get_href() or ''].  A node without a
    usable href of its own must have a parent to ask. *)
Definition href_of (n : node) : outcome string :=
  match href (data (focus n)) with
  | Some h =>
      if nonempty h then Done h
      else
        match parent n with
        | Some p => Done (str_or (href (data (focus p))) EmptyString)
        | None => Raise AttributeError
        end
  | None =>
      match parent n with
      | Some p => Done (str_or (href (data (focus p))) EmptyString)
      | None => Raise AttributeError
      end
  end.

(** The head of the per-character loop body: the delta accumulator. *)
Definition advance_deltas (d : point) (x y dx dy : option R) : point :=
  let d0 := if truthy x then 0 else fst d in
  let d1 := if truthy y then 0 else snd d in
  (d0 + or_zero dx, d1 + or_zero dy).

(** [0 <= middle <= length]. *)
Definition between (lo m hi : R) : bool :=
  (if Rle_dec lo m then true else false) && (if Rle_dec m hi then true else false).

(** The tail of the loop body: emission, [restore], and the cursor. *)
Definition emit (draw_as_text : bool) (letter : string) (surface : Surface)
    : Surface :=
  let surface :=
    if negb (isspace letter) then
      if draw_as_text then call (show_text letter) surface
      else call (text_path letter) surface
    else surface in
  with_context surface (ctx_restore (context surface)).

(** What the loop needs of the lines before it. *)
Record layout : Type := {
  letter_spacing : R;
  x_align : R;
  y_align : R;
  last_r : R;
  (** [cairo_path] and [length] when [text_path] is set *)
  following : option (path * R);
  draw_as_text : bool
}.

(** The body of the per-character loop for character [i]. *)
Definition letter_step (L : layout) (i : nat)
    (pos : option R * option R * option R * option R * option R)
    (letter : string) (st : Surface * bounding_box)
    : outcome (Surface * bounding_box) :=
  let '(x, y, dx, dy, r) := pos in
  let '(surface, bbox) := st in
  let surface :=
    with_cursor_d_position surface
      (advance_deltas (cursor_d_position surface) x y dx dy) in
  let d := cursor_d_position surface in
  let letter_extents := text_extents (font (context surface)) (Some letter) in
  let extents_ := x_advance letter_extents in
  match following L with
  | Some (cairo_path, length) =>
      let start := text_path_width surface + fst d in
      start_point <- point_following_path cairo_path start ;;
      let middle := start + extents_ / 2 in
      middle_point <- point_following_path cairo_path middle ;;
      let end_ := start + extents_ in
      end_point <- point_following_path cairo_path end_ ;;
      let extents_ :=
        if (i =? 0)%nat then extents_ else extents_ + letter_spacing L in
      let surface :=
        with_text_path_width surface (text_path_width surface + extents_) in
      match start_point, middle_point, end_point with
      | Some sp, Some _, Some ep =>
          if between 0 middle length then
            let surface := with_context surface (ctx_save (context surface)) in
            let surface := call (translate (fst sp) (snd sp)) surface in
            let surface :=
              call (rotate (point_angle (fst sp) (snd sp) (fst ep) (snd ep)))
                   surface in
            let surface := call (translate 0 (snd d)) surface in
            let surface := call (move_to 0 0) surface in
            let bbox :=
              extend_bounding_box bbox [(fst ep, ext_height letter_extents)] in
            Done (emit (draw_as_text L) letter surface, bbox)
          else Done (surface, bbox)
      | _, _, _ => Done (surface, bbox)
      end
  | None =>
      let surface := with_context surface (ctx_save (context surface)) in
      let x := match x with None => fst (cursor_position surface) | Some v => v end in
      let y := match y with None => snd (cursor_position surface) | Some v => v end in
      let x := if (i =? 0)%nat then x else x + letter_spacing L in
      let surface := call (move_to x y) surface in
      let cursor := (x + extents_, y) in
      let surface := call (rel_move_to (fst d) (snd d)) surface in
      let surface := call (rel_move_to (x_align L) (y_align L)) surface in
      let surface :=
        call (rotate (match r with None => last_r L | Some v => v end)) surface in
      let points :=
        [(fst cursor + x_align L + fst d, snd cursor + y_align L + snd d);
         (fst cursor + x_align L + x_advance letter_extents + fst d,
          snd cursor + y_align L + ext_height letter_extents + snd d)] in
      let bbox := extend_bounding_box bbox points in
      let surface := emit (draw_as_text L) letter surface in
      Done (with_cursor_position surface cursor, bbox)
  end.

(** [for i, (pos, letter) in enumerate(letters_positions)], from index [i]. *)
Fixpoint letters_loop (L : layout) (i : nat)
    (positions : list ((option R * option R * option R * option R * option R)
                       * string))
    (st : Surface * bounding_box) : outcome (Surface * bounding_box) :=
  match positions with
  | [] => Done st
  | (pos, letter) :: rest =>
      st' <- letter_step L i pos letter st ;;
      letters_loop L (S i) rest st'
  end.

(** The branch taken when the node has no text: only the cursor moves. *)
Definition place_cursor (surface : Surface) (x y dx dy : list R) : Surface :=
  let x := match x with v :: _ => v | [] => fst (cursor_position surface) end in
  let y := match y with v :: _ => v | [] => snd (cursor_position surface) end in
  let dx := match dx with v :: _ => v | [] => 0 end in
  let dy := match dy with v :: _ => v | [] => 0 end in
  with_cursor_position surface (x + dx, y + dy).

(** [node['text_bounding_box'] = bounding_box]. *)
Definition store_bounding_box (n : node) (bb : bounding_box) : node :=
  {| focus :=
       Tree {| tag := tag (data (focus n)); text_of := text_of (data (focus n));
               attrib := attrib (data (focus n)); href := href (data (focus n));
               text_bounding_box := Some bb |}
            (subtrees (focus n));
     above := above n |}.

(** Path preparation, for the flattened path [text_path] that drawing the
    referenced node leaves in the context ([surface.draw] itself is the
    collaborator's business and is not traced): the surface, the bounding box
    and what the loop needs of the path. *)
Definition prepare_path (surface : Surface) (n : node)
    (text_path_ : option path) (x_bearing_ xa : R)
    : outcome (Surface * bounding_box * option (path * R)) :=
  match text_path_ with
  | Some cairo_path =>
      let surface := call new_path surface in
      let surface := with_stroke_and_fill surface false in
      let surface := with_stroke_and_fill surface true in
      let surface := call new_path surface in
      total <- path_length cairo_path ;;
      let length := total + x_bearing_ in
      (* [node.get('startOffset', 0)]: the default 0 is as empty as [None] *)
      start_offset <- size surface (get n "startOffset") (ref_length length) ;;
      let surface :=
        if node_tag n =? "textPath"
        then with_text_path_width surface (text_path_width surface + start_offset)
        else surface in
      let surface :=
        with_text_path_width surface (text_path_width surface + xa) in
      Done (surface,
            extend_bounding_box EMPTY_BOUNDING_BOX [(start_offset, 0)],
            Some (cairo_path, length))
  | None => Done (surface, EMPTY_BOUNDING_BOX, None)
  end.

(** [text(surface, node, draw_as_text)]: the surface and the node as the call
    leaves them. *)
Definition text (surface : Surface) (n : node) (as_text : bool)
    : outcome (Surface * node) :=
  let surface := initial_context_font surface n in
  let '(ascent, descent, _, max_x_advance, max_y_advance) :=
    font_extents (font (context surface)) in
  text_path_href <- href_of n ;;
  let fragment := url_fragment text_path_href in
  let text_path_ :=
    if nonempty fragment then lookup_path fragment (paths surface) else None in
  spacing <- size surface (get n "letter-spacing") ref_xy ;;
  let '(e, surface) := get_node_text_extents surface n in
  x <- length_list surface n "x" ref_x ;;
  y <- length_list surface n "y" ref_y ;;
  dx <- length_list surface n "dx" ref_x ;;
  dy <- length_list surface n "dy" ref_y ;;
  rotate_ <- rotate_list n ;;
  r_last <- last_of rotate_ ;;
  let letters_positions :=
    zip_letters x y dx dy rotate_ (letters_of (node_text n)) in
  let xa :=
    x_align_of (get n "text-anchor") (ext_width e) (x_bearing e) spacing
      (node_text n) in
  let ya :=
    y_align_of ascent descent max_x_advance max_y_advance
      (y_bearing e) (ext_height e)
      (get n "display-anchor") (get n "dominant-baseline")
      (get n "alignment-baseline") in
  prepared <- prepare_path surface n text_path_ (x_bearing e) xa ;;
  let '(surface, bbox, follow) := prepared in
  let L := {| letter_spacing := spacing; x_align := xa; y_align := ya;
              last_r := r_last; following := follow; draw_as_text := as_text |} in
  final <-
    (if str_truthy (node_text n)
     then letters_loop L 0 letters_positions (surface, bbox)
     else Done (place_cursor surface x y dx dy, bbox)) ;;
  let '(surface, bbox) := final in
  if is_valid_bounding_box bbox
  then Done (surface, store_bounding_box n bbox)
  else Done (surface, n).

End TextDrawers.

(** ** A small document and stand-in collaborators, for concrete runs *)

Module Sample.

(** Every string measures 40 wide and 9 high with bearings (2, -8); every
    font is 10 up, 3 down, with horizontal metrics; lengths and numbers are
    plain decimal digit strings; a fragment is what follows a leading [#]. *)
#[local] Instance env : Collaborators := {
  text_extents := fun _ _ =>
    {| x_bearing := 2; y_bearing := -8; ext_width := 40; ext_height := 9;
       x_advance := 10; y_advance := 0 |};
  font_extents := fun _ => (10, 3, 13, 12, 0);
  size := fun _ v _ =>
    match v with
    | Some s => if isdigit s then Done (float_of_digits s) else Done 0
    | None => Done 0
    end;
  normalize := fun s => s;
  url_fragment := fun s =>
    match s with
    | String "#" rest => rest
    | _ => EmptyString
    end;
  float_of_string := fun s =>
    if isdigit s then Some (float_of_digits s) else None
}.

Definition no_font : FontSpec :=
  {| family := EmptyString; slant := FONT_SLANT_NORMAL; weight := FONT_WEIGHT_NORMAL;
     size_of_font := 12 |}.

Definition line_path : path := [MoveTo (0, 0); LineTo (100, 0)].

Definition surface : Surface :=
  {| context := {| font := no_font; saved := []; calls := [] |};
     font_size := 12;
     cursor_position := (0, 0);
     cursor_d_position := (0, 0);
     text_path_width := 0;
     stroke_and_fill := true;
     paths := [("curve", line_path)] |}.

Definition leaf (tg : string) (txt : option string)
    (attrs : list (string * string)) : tree :=
  Tree {| tag := tg; text_of := txt; attrib := attrs; href := None;
          text_bounding_box := None |} [].

Definition svg_crumb : crumb :=
  {| up_data := {| tag := "svg"; text_of := None; attrib := []; href := None;
                   text_bounding_box := None |};
     lefts := []; rights := [] |}.

(** [<svg><text x="5" y="5"/></svg>]: a positioning-only node. *)
Definition empty_text : node :=
  {| focus := leaf "text" (Some EmptyString) [("x", "5"); ("y", "5")];
     above := [svg_crumb] |}.

(** [<svg><text font-weight="600" font-size="12">Hi</text></svg>]. *)
Definition heavy_text : node :=
  {| focus := leaf "text" (Some "Hi")
                [("font-weight", "600"); ("font-size", "12")];
     above := [svg_crumb] |}.

End Sample.

(** ** Further vocabulary for the path sampler *)

(** The lengths of the segments of a polyline that starts at [o]. *)
Fixpoint segment_lengths (o : point) (pts : list point) : list R :=
  match pts with
  | [] => []
  | q :: rest =>
      distance (fst o) (snd o) (fst q) (snd q) :: segment_lengths q rest
  end.

(** A [LineTo] comes before any [MoveTo]. *)
Fixpoint line_before_move (items : path) : bool :=
  match items with
  | [] => false
  | MoveTo _ :: _ => false
  | LineTo _ :: _ => true
  | ClosePath :: rest => line_before_move rest
  end.

(** The point [l] away from [o] on the straight line from [o] to [q]. *)
Definition interpolate (o q : point) (l : R) : point :=
  let d := distance (fst o) (snd o) (fst q) (snd q) in
  (fst o + l / d * (fst q - fst o), snd o + l / d * (snd q - snd o)).

(** ** Further vocabulary for strings *)

(** The character [c] occurs in [s]. *)
Fixpoint occurs (c : ascii) (s : string) : bool :=
  match s with
  | EmptyString => false
  | String a s' => Ascii.eqb a c || occurs c s'
  end.

(** The first and the last character of a string, if any. *)
Definition first_char (s : string) : option ascii :=
  match s with
  | EmptyString => None
  | String a _ => Some a
  end.

Fixpoint last_char (s : string) : option ascii :=
  match s with
  | EmptyString => None
  | String a s' =>
      match last_char s' with
      | Some b => Some b
      | None => Some a
      end
  end.

Definition kept (drop : ascii -> bool) (c : option ascii) : Prop :=
  match c with
  | Some a => drop a = false
  | None => True
  end.

(** ** Further vocabulary for surfaces and trees *)

(** [s'] is [s] after some calls that paint no glyph and leave the font, the
    saved fonts and everything outside the context as they were. *)
Definition undisturbed (s s' : Surface) : Prop :=
  (exists more, calls (context s') = calls (context s) ++ more) /\
  glyphs (context s') = glyphs (context s) /\
  font (context s') = font (context s) /\
  saved (context s') = saved (context s) /\
  font_size s' = font_size s /\
  cursor_position s' = cursor_position s /\
  cursor_d_position s' = cursor_d_position s /\
  text_path_width s' = text_path_width s /\
  stroke_and_fill s' = stroke_and_fill s /\
  paths s' = paths s.

(** The number of nodes of a tree. *)
Fixpoint tree_size (t : tree) : nat :=
  match t with
  | Tree _ cs =>
      S ((fix forest_size (ts : list tree) : nat :=
            match ts with
            | [] => 0%nat
            | c :: ts' => (tree_size c + forest_size ts')%nat
            end) cs)
  end.

Module Run.

(** [<svg><text><tspan>ab</tspan><tspan>cd</tspan></text></svg>], and its
    two spans as node objects. *)
Definition text_data : node_data :=
  {| tag := "text"; text_of := Some EmptyString; attrib := []; href := None;
     text_bounding_box := None |}.

Definition first_span : node :=
  {| focus := Sample.leaf "tspan" (Some "ab") [];
     above := [ {| up_data := text_data; lefts := [];
                   rights := [Sample.leaf "tspan" (Some "cd") []] |};
                Sample.svg_crumb ] |}.


(** [<svg><textPath href="#curve">ab</textPath></svg>]: a text along the
    registered sample path. *)
Definition on_curve : node :=
  {| focus := Tree {| tag := "textPath"; text_of := Some "ab"; attrib := [];
                      href := Some "#curve"; text_bounding_box := None |} [];
     above := [Sample.svg_crumb] |}.

(** [<text rotate="4x">a</text>] under the same root: a rotation that is
    no number. *)
Definition bad_rotate : node :=
  {| focus := Sample.leaf "text" (Some "a") [("rotate", "4x")];
     above := [Sample.svg_crumb] |}.


(** The layouts used in the runs: free placement, and along the sample
    path. *)
Definition free_layout : layout :=
  {| letter_spacing := 1; x_align := 0; y_align := 0; last_r := 0;
     following := None; draw_as_text := false |}.

Definition path_layout : layout :=
  {| letter_spacing := 1; x_align := 0; y_align := 0; last_r := 0;
     following := Some (Sample.line_path, 102); draw_as_text := false |}.

End Run.

(** ** Further vocabulary for the loop *)

(** The call that paints a letter, by mode. *)
Definition paint (as_text : bool) (letter : string) : context_call :=
  if as_text then show_text letter else text_path letter.

(** The letters of some positions that are not white space. *)
Definition inked
    (positions : list ((option R * option R * option R * option R * option R)
                       * string)) : list string :=
  filter (fun l => negb (isspace l)) (map snd positions).

(** The absolute coordinates of a position. *)
Definition pos_x (p : (option R * option R * option R * option R * option R)
                      * string) : option R :=
  fst (fst (fst (fst (fst p)))).

Definition pos_y (p : (option R * option R * option R * option R * option R)
                      * string) : option R :=
  snd (fst (fst (fst (fst p)))).

(** * Theorems *)

(** ** Geometry *)

Lemma distance_nonneg (x1 y1 x2 y2 : R) : 0 <= distance x1 y1 x2 y2.
Proof. unfold distance. apply sqrt_pos. Qed.

Lemma distance_zero (x1 y1 x2 y2 : R) :
  distance x1 y1 x2 y2 = 0 -> x2 = x1 /\ y2 = y1.
Proof.
  unfold distance. intros H.
  pose proof (Rle_0_sqr (x2 - x1)) as Hx.
  pose proof (Rle_0_sqr (y2 - y1)) as Hy.
  unfold Rsqr in Hx, Hy.
  apply sqrt_eq_0 in H; [| lra].
  assert (Hx0 : (x2 - x1) * (x2 - x1) = 0) by lra.
  assert (Hy0 : (y2 - y1) * (y2 - y1) = 0) by lra.
  apply Rmult_integral in Hx0, Hy0.
  split; lra.
Qed.

Lemma hypot_scale (x t : R) :
  0 < x -> sqrt (x * x + (t * x) * (t * x)) = x * sqrt (1 + t²).
Proof.
  intros Hx.
  replace (x * x + t * x * (t * x)) with (x² * (1 + t²)) by (unfold Rsqr; ring).
  rewrite sqrt_mult_alt by apply Rle_0_sqr.
  rewrite sqrt_Rsqr by lra. reflexivity.
Qed.

Lemma sqrt_1_sqr_pos (t : R) : 0 < sqrt (1 + t²).
Proof. apply sqrt_lt_R0. pose proof (Rle_0_sqr t). lra. Qed.

(** Polar decomposition: [atan2] and the norm recover the vector. *)
Lemma atan2_polar (y x : R) :
  cos (atan2 y x) * sqrt (x * x + y * y) = x /\
  sin (atan2 y x) * sqrt (x * x + y * y) = y.
Proof.
  unfold atan2.
  destruct (Rlt_dec 0 x) as [Hx | Hx].
  - set (t := y / x).
    assert (Hy : y = t * x) by (unfold t; field; lra).
    assert (Hn : sqrt (x * x + y * y) = x * sqrt (1 + t²)).
    { rewrite <- hypot_scale by assumption. rewrite <- Hy. reflexivity. }
    rewrite Hn, cos_atan, sin_atan.
    pose proof (sqrt_1_sqr_pos t).
    split; [field; lra |]. transitivity (t * x); [field; lra | lra].
  - destruct (Rlt_dec x 0) as [Hx' | Hx'].
    + set (t := y / x).
      assert (Hy : y = (- t) * (- x)) by (unfold t; field; lra).
      assert (Hn : sqrt (x * x + y * y) = (- x) * sqrt (1 + t²)).
      { replace (1 + t²) with (1 + (- t)²) by (rewrite <- Rsqr_neg; reflexivity).
        rewrite <- hypot_scale by lra.
        rewrite <- Hy. f_equal. ring. }
      rewrite Hn.
      pose proof (sqrt_1_sqr_pos t).
      assert (Hc : cos (atan t) * (- x * sqrt (1 + t²)) = - x)
        by (rewrite cos_atan; field; lra).
      assert (Hs : sin (atan t) * (- x * sqrt (1 + t²)) = - (t * x))
        by (rewrite sin_atan; field; lra).
      assert (Hyx : y = t * x) by lra.
      destruct (Rle_dec 0 y) as [Hy0 | Hy0].
      * rewrite neg_cos, neg_sin. split; nra.
      * unfold Rminus. rewrite cos_plus, sin_plus, cos_neg, sin_neg, cos_PI, sin_PI.
        split; nra.
    + assert (x = 0) by lra. subst x.
      replace (0 * 0 + y * y) with (y²) by (unfold Rsqr; ring).
      destruct (Rlt_dec 0 y) as [Hy | Hy].
      * rewrite cos_PI2, sin_PI2, sqrt_Rsqr by lra. split; ring.
      * destruct (Rlt_dec y 0) as [Hy' | Hy'].
        -- rewrite cos_neg, sin_neg, cos_PI2, sin_PI2.
           rewrite Rsqr_neg, sqrt_Rsqr by lra. split; ring.
        -- assert (y = 0) by lra. subst y.
           rewrite Rsqr_0, sqrt_0. split; ring.
Qed.


Lemma distance_horizontal (x1 x2 y : R) :
  x1 <= x2 -> distance x1 y x2 y = x2 - x1.
Proof.
  intros H. unfold distance.
  replace ((x2 - x1) * (x2 - x1) + (y - y) * (y - y)) with ((x2 - x1)²)
    by (unfold Rsqr; ring).
  apply sqrt_Rsqr. lra.
Qed.

Lemma point_angle_east (x1 x2 y : R) : x1 < x2 -> point_angle x1 y x2 y = 0.
Proof.
  intros H. unfold point_angle, atan2.
  destruct (Rlt_dec 0 (x2 - x1)) as [_ | Hn]; [| lra].
  replace ((y - y) / (x2 - x1)) with 0 by (field; lra).
  apply atan_0.
Qed.

(** ** Path sampler *)

Lemma path_length_loop_mono (items : path) :
  forall t old L, path_length_loop items t old = Done L -> t <= L.
Proof.
  induction items as [| [p | q |] rest IH]; intros t old L H; cbn in H.
  - injection H as <-. lra.
  - eauto.
  - destruct old as [o |]; [| discriminate].
    apply IH in H.
    pose proof (distance_nonneg (fst o) (snd o) (fst q) (snd q)). lra.
  - eauto.
Qed.

Lemma path_length_loop_no_line (items : path) :
  forall t old, has_line items = false -> path_length_loop items t old = Done t.
Proof.
  induction items as [| [p | q |] rest IH]; intros t old H; cbn in *;
    try discriminate; auto.
Qed.

(** The sampler answers [None] exactly when it runs off the end of the path:
    there is no line at all, or the target lies beyond the total length. *)
Lemma point_following_path_loop_none (items : path) (w : R) :
  forall t old L,
    path_length_loop items t old = Done L ->
    (point_following_path_loop items w t old = Done None <->
     has_line items = false \/ L < w).
Proof.
  induction items as [| [p | q |] rest IH]; intros t old L H; cbn in *.
  - split; auto.
  - apply (IH _ _ _ H).
  - destruct old as [o |]; [| discriminate].
    destruct (Rlt_dec _ w) as [Hlt | Hge].
    + rewrite (IH _ _ _ H).
      split; [| intros [Hf | HL]; [discriminate | right; exact HL]].
      intros [Hno | HL]; [| right; exact HL]. right.
      rewrite (path_length_loop_no_line _ _ _ Hno) in H.
      injection H as <-. exact Hlt.
    + apply path_length_loop_mono in H.
      split; [discriminate |]. intros [Hno | HL]; [discriminate | lra].
  - apply (IH _ _ _ H).
Qed.












(** A point that is only moved to is never sampled: on a path that ends
    with a [MoveTo] the sampler does not reach the last point. *)
Lemma trailing_move_to_is_not_sampled :
  ~ samples_end_to_end [MoveTo (0, 0); LineTo (1, 0); MoveTo (5, 5)].
Proof.
  intros (L & HL & _ & Hlast & _).
  unfold path_length in HL. cbn in HL.
  rewrite distance_horizontal in HL by lra. injection HL as <-.
  unfold point_following_path in Hlast.
  cbn [point_following_path_loop last_point item_point fst snd] in Hlast.
  rewrite distance_horizontal in Hlast by lra.
  destruct (Rlt_dec _ _) as [Hlt | _] in Hlast; [lra |].
  rewrite point_angle_east, cos_0 in Hlast by lra.
  injection Hlast as Hx _. lra.
Qed.




(** ** Truthiness *)

Lemma is_zero_true (r : R) : is_zero r = true <-> r = 0.
Proof.
  unfold is_zero. destruct (Req_dec_T r 0); split; intros; congruence.
Qed.

Lemma is_zero_false (r : R) : is_zero r = false <-> r <> 0.
Proof.
  unfold is_zero. destruct (Req_dec_T r 0); split; intros; congruence.
Qed.

Lemma or_zero_value (r : R) : or_zero (Some r) = r.
Proof.
  unfold or_zero. destruct (is_zero r) eqn:H; [| reflexivity].
  apply is_zero_true in H. congruence.
Qed.

(** ** Alignment *)

(** C2: with measured width [w], bearing [b], [n] characters and letter
    spacing [s], text-anchor 'middle' gives [-(w/2 + b)], less [(n-1)*s/2]
    when [s] is non-zero and the text non-empty; 'end' gives [-(w + b)], less
    [(n-1)*s] under the same condition; any other anchor gives 0.  With
    w = 40, b = 2, n = 3, s = 1: 'middle' is -23 and 'end' is -44. *)
Theorem C2_x_align (w b s : R) (txt : option string) :
  (s <> 0 -> str_truthy txt = true ->
     x_align_of (Some "middle") w b s txt
       = - (w / 2 + b) - (len txt - 1) * s / 2 /\
     x_align_of (Some "end") w b s txt = - (w + b) - (len txt - 1) * s) /\
  (s = 0 \/ str_truthy txt = false ->
     x_align_of (Some "middle") w b s txt = - (w / 2 + b) /\
     x_align_of (Some "end") w b s txt = - (w + b)) /\
  (forall anchor, anchor <> Some "middle" -> anchor <> Some "end" ->
     x_align_of anchor w b s txt = 0) /\
  x_align_of (Some "middle") 40 2 1 (Some "abc") = -23 /\
  x_align_of (Some "end") 40 2 1 (Some "abc") = -44.
Proof.
  split; [| split; [| split; [| split]]].
  - intros Hs Ht. apply is_zero_false in Hs.
    unfold x_align_of. cbn. rewrite Hs, Ht. cbn. split; reflexivity.
  - intros H. unfold x_align_of. cbn.
    destruct H as [Hs | Ht].
    + apply is_zero_true in Hs. rewrite Hs. cbn. split; reflexivity.
    + rewrite Ht, andb_false_r. split; reflexivity.
  - intros [anchor |] Hm He; [| reflexivity].
    unfold x_align_of.
    destruct (String.eqb_spec anchor "middle") as [-> | _]; [congruence |].
    destruct (String.eqb_spec anchor "end") as [-> | _]; [congruence |].
    reflexivity.
  - unfold x_align_of. cbn.
    assert (H : is_zero 1 = false) by (apply is_zero_false; lra).
    rewrite H. cbn. lra.
  - unfold x_align_of. cbn.
    assert (H : is_zero 1 = false) by (apply is_zero_false; lra).
    rewrite H. cbn. lra.
Qed.

Lemma C2_x_align_witness :
  x_align_of (Some "middle") 40 2 1 (Some "abc")
    = - (40 / 2 + 2) - (len (Some "abc") - 1) * 1 / 2 /\
  x_align_of (Some "end") 40 2 1 (Some "abc")
    = - (40 + 2) - (len (Some "abc") - 1) * 1.
Proof.
  apply (proj1 (C2_x_align 40 2 1 (Some "abc"))); [lra | reflexivity].
Defined.

(** C7: unless the font metrics are those of a horizontal font
    ([max_x_advance > 0] and [max_y_advance = 0]), the vertical offset is 0
    whatever the display-anchor, dominant-baseline and alignment-baseline
    attributes are; so with [max_y_advance > 0] two runs that differ only in
    those attributes get the same offset. *)
Theorem C7_y_align_horizontal_fonts_only
    (ascent descent max_x_advance max_y_advance y_bearing_ height : R) :
  (~ (0 < max_x_advance /\ max_y_advance = 0) ->
   forall display_anchor dominant_baseline alignment_baseline,
     y_align_of ascent descent max_x_advance max_y_advance y_bearing_ height
       display_anchor dominant_baseline alignment_baseline = 0) /\
  (0 < max_y_advance ->
   forall a1 d1 b1 a2 d2 b2,
     y_align_of ascent descent max_x_advance max_y_advance y_bearing_ height
       a1 d1 b1
     = y_align_of ascent descent max_x_advance max_y_advance y_bearing_ height
       a2 d2 b2).
Proof.
  assert (H0 : ~ (0 < max_x_advance /\ max_y_advance = 0) ->
               forall a d b,
                 y_align_of ascent descent max_x_advance max_y_advance
                   y_bearing_ height a d b = 0).
  { intros Hn a d b. unfold y_align_of.
    destruct (Rlt_dec 0 max_x_advance) as [Hx | Hx]; [| reflexivity].
    destruct (is_zero max_y_advance) eqn:Hy; [| reflexivity].
    apply is_zero_true in Hy. tauto. }
  split; [exact H0 |].
  intros Hy a1 d1 b1 a2 d2 b2.
  rewrite !H0 by lra. reflexivity.
Qed.

Lemma C7_y_align_horizontal_fonts_only_witness :
  y_align_of 10 3 12 12 (-8) 9 (Some "middle") None None
  = y_align_of 10 3 12 12 (-8) 9 None (Some "hanging") (Some "bottom").
Proof.
  apply (proj2 (C7_y_align_horizontal_fonts_only 10 3 12 12 (-8) 9)). lra.
Defined.

(** ** The delta accumulator *)

(** What the loop head does with an explicit coordinate other than 0: the
    accumulator restarts from 0. *)
Lemma advance_deltas_nonzero (d : point) (x y : R) (dx dy : option R) :
  x <> 0 -> y <> 0 ->
  advance_deltas d (Some x) (Some y) dx dy = (0 + or_zero dx, 0 + or_zero dy).
Proof.
  intros Hx Hy. apply is_zero_false in Hx, Hy.
  unfold advance_deltas, truthy. rewrite Hx, Hy. reflexivity.
Qed.

(** C5, for a coordinate given as 0: a coordinate explicitly given as 0
    is taken for a missing one by the test [if x:], so the accumulator is
    not reset and the deltas are added to what it already holds.  In the
    run below the accumulator holds (3, 4) when a character with x = 0 and
    y = 0 arrives: it still holds (3, 4) afterwards, although the pen was
    moved to the explicit position. *)
Theorem C5_explicit_zero_keeps_accumulator :
  (forall (d : point) (x y dx dy : option R),
     fst (advance_deltas d (Some 0) y dx dy) = fst d + or_zero dx /\
     snd (advance_deltas d x (Some 0) dx dy) = snd d + or_zero dy) /\
  exists s' b',
    letter_step (env := Sample.env)
      {| letter_spacing := 0; x_align := 0; y_align := 0; last_r := 0;
         following := None; draw_as_text := false |}
      1 (Some 0, Some 0, None, None, None) "b"
      (with_cursor_position (with_cursor_d_position Sample.surface (3, 4)) (7, 7),
       EMPTY_BOUNDING_BOX)
      = Done (s', b') /\
    cursor_d_position s' = (3 + 0, 4 + 0) /\
    cursor_position s' = (0 + 0 + 10, 0).
Proof.
  assert (H : is_zero 0 = true) by (apply is_zero_true; reflexivity).
  split.
  - intros d x y dx dy. unfold advance_deltas, truthy. rewrite H. cbn. auto.
  - eexists. eexists. split; [reflexivity |].
    assert (Hd : advance_deltas (3, 4) (Some 0) (Some 0) None None
                 = (3 + 0, 4 + 0))
      by (unfold advance_deltas, truthy; rewrite H; reflexivity).
    cbn -[advance_deltas]. change (is_space_char "b") with false.
    cbn -[advance_deltas]. rewrite Hd. split; reflexivity.
Qed.

(** ** Font context setup *)





(** ** Document trees *)

Lemma tree_forall_ind (P : tree -> Prop) :
  (forall d cs, Forall P cs -> P (Tree d cs)) -> forall t, P t.
Proof.
  intros H. fix IH 1. intros [d cs]. apply H.
  induction cs as [| c cs IHcs]; constructor; [apply IH | exact IHcs].
Qed.

Lemma iter_tree_eq (d : node_data) (cs : list tree) (up : list crumb) :
  iter_tree (Tree d cs) up =
    {| focus := Tree d cs; above := up |} :: iter_forest d up [] cs.
Proof. reflexivity. Qed.

Lemma iter_forest_cons (d : node_data) (up : list crumb) (ls : list tree)
    (c : tree) (rs : list tree) :
  iter_forest d up ls (c :: rs) =
    iter_tree c ({| up_data := d; lefts := ls; rights := rs |} :: up)
    ++ iter_forest d up (ls ++ [c]) rs.
Proof. reflexivity. Qed.


Lemma in_iter_forest (d : node_data) (up : list crumb) (z : node) :
  forall rs ls,
    In z (iter_forest d up ls rs) <->
    exists l1 c rs2,
      rs = l1 ++ c :: rs2 /\
      In z (iter_tree c ({| up_data := d; lefts := ls ++ l1; rights := rs2 |} :: up)).
Proof.
  induction rs as [| c rs IH]; intros ls.
  - cbn. split; [tauto |]. intros (l1 & c & rs2 & H & _).
    destruct l1; discriminate.
  - rewrite iter_forest_cons, in_app_iff, IH. split.
    + intros [H | (l1 & c' & rs2 & -> & H)].
      * exists [], c, rs. rewrite app_nil_r. auto.
      * exists (c :: l1), c', rs2. rewrite <- app_assoc in H. auto.
    + intros (l1 & c' & rs2 & Heq & H).
      destruct l1 as [| a l1]; cbn in Heq; injection Heq as <- ->.
      * left. rewrite app_nil_r in H. exact H.
      * right. exists l1, c', rs2. rewrite <- app_assoc. auto.
Qed.


Lemma iter_tree_above (t : tree) :
  forall up z, In z (iter_tree t up) -> exists pre, above z = pre ++ up.
Proof.
  induction t as [d cs IH] using tree_forall_ind. intros up z Hz.
  rewrite iter_tree_eq in Hz. destruct Hz as [<- | Hz].
  - exists []. reflexivity.
  - apply in_iter_forest in Hz. destruct Hz as (l1 & c & rs2 & -> & Hz).
    rewrite Forall_forall in IH.
    destruct (IH c ltac:(apply in_elt) _ _ Hz) as [pre Hpre].
    exists (pre ++ [{| up_data := d; lefts := [] ++ l1; rights := rs2 |}]).
    rewrite <- app_assoc. exact Hpre.
Qed.





(** The loop stops on the nearest node tagged ['text'], or else at the root. *)
Lemma climb_spec (up : list crumb) :
  forall t,
    match find is_text_node (ancestry t up) with
    | Some a => climb t up = a
    | None => is_text_node (climb t up) = false /\ above (climb t up) = []
    end.
Proof.
  induction up as [| c cs IH]; intros t; cbn [climb ancestry find].
  - unfold is_text_node at 1, node_tag. cbn [focus].
    destruct (tag (data t) =? "text") eqn:Ht; [reflexivity |].
    split; [exact Ht | reflexivity].
  - unfold is_text_node at 1, node_tag. cbn [focus].
    destruct (tag (data t) =? "text") eqn:Ht; cbn [negb]; [reflexivity |].
    apply IH.
Qed.


Lemma same_node_address (a b : node) :
  same_node a b = true <-> address a = address b.
Proof.
  unfold same_node. destruct (list_eq_dec Nat.eq_dec _ _); split; congruence.
Qed.

Lemma enclosing_text_node_nearest (n : node) :
  enclosing_text_node n = nearest_text_node n.
Proof.
  unfold enclosing_text_node, nearest_text_node.
  pose proof (climb_spec (above n) (focus n)) as H.
  destruct (find is_text_node (ancestry (focus n) (above n))) as [a |] eqn:Hf.
  - rewrite H. apply find_some in Hf. destruct Hf as [_ Ha].
    unfold is_text_node in Ha. rewrite Ha, andb_false_r. reflexivity.
  - destruct H as [Ht Hup]. unfold is_text_node in Ht. rewrite Ht.
    destruct (same_node (climb (focus n) (above n)) n) eqn:Hs; [| reflexivity].
    cbn [negb andb].
    apply same_node_address in Hs. unfold address in Hs. rewrite Hup in Hs.
    destruct n as [t up]. cbn [above focus] in *.
    destruct up; [reflexivity | discriminate].
Qed.


(** ** Text extent aggregator *)

Section Aggregator.

Context {env : Collaborators}.





End Aggregator.

(** ** The per-character loop *)

Lemma point_following_path_loop_total (items : path) (w : R) :
  forall t old L,
    path_length_loop items t old = Done L ->
    exists r, point_following_path_loop items w t old = Done r.
Proof.
  induction items as [| [p | q |] rest IH]; intros t old L H; cbn in *.
  - eauto.
  - eauto.
  - destruct old as [o |]; [| discriminate].
    destruct (Rlt_dec _ w); eauto.
  - eauto.
Qed.

(** A path whose length can be taken can be sampled anywhere. *)
Lemma point_following_path_total (p : path) (L w : R) :
  path_length p = Done L -> exists r, point_following_path p w = Done r.
Proof. apply point_following_path_loop_total. Qed.

Lemma between_true (lo m hi : R) : between lo m hi = true <-> lo <= m <= hi.
Proof.
  unfold between. destruct (Rle_dec lo m), (Rle_dec m hi); cbn;
    split; intros; try discriminate; tauto.
Qed.

Section Loop.

Context {env : Collaborators}.

(** C3: in a path-following run, a character for which one of the start,
    middle and end samples is unavailable, or whose middle arc-length lies
    outside [0, length], is skipped: the context receives no call at all (so
    no glyph), the bounding box is unchanged, and [text_path_width] has
    moved on by the character's advance, plus the letter spacing when the
    character index is positive. *)
Theorem C3_skipped_character (L : layout) (i : nat)
    (x y dx dy r : option R) (letter : string)
    (surface : Surface) (bbox : bounding_box)
    (cairo_path : path) (length total : R) :
  let d := advance_deltas (cursor_d_position surface) x y dx dy in
  let advance := x_advance (text_extents (font (context surface)) (Some letter)) in
  let start := text_path_width surface + fst d in
  let middle := start + advance / 2 in
  let end_ := start + advance in
  following L = Some (cairo_path, length) ->
  path_length cairo_path = Done total ->
  point_following_path cairo_path start = Done None \/
  point_following_path cairo_path middle = Done None \/
  point_following_path cairo_path end_ = Done None \/
  ~ (0 <= middle <= length) ->
  exists surface',
    letter_step L i (x, y, dx, dy, r) letter (surface, bbox)
      = Done (surface', bbox) /\
    calls (context surface') = calls (context surface) /\
    glyphs (context surface') = glyphs (context surface) /\
    text_path_width surface' =
      text_path_width surface
      + (if (i =? 0)%nat then advance else advance + letter_spacing L).
Proof.
  intros d advance start middle end_ HL Hlen Hskip.
  destruct (point_following_path_total _ _ start Hlen) as [sp Hsp].
  destruct (point_following_path_total _ _ middle Hlen) as [mp Hmp].
  destruct (point_following_path_total _ _ end_ Hlen) as [ep Hep].
  unfold letter_step. rewrite HL.
  cbn [cursor_d_position with_cursor_d_position text_path_width context].
  fold d. fold advance. fold start. fold middle. fold end_.
  rewrite Hsp, Hmp, Hep. cbn [bind].
  exists (with_text_path_width (with_cursor_d_position surface d)
            (text_path_width surface
             + (if (i =? 0)%nat then advance else advance + letter_spacing L))).
  split; [| split; [| split]]; try reflexivity.
  destruct sp as [sp |]; [| reflexivity].
  destruct mp as [mp |]; [| reflexivity].
  destruct ep as [ep |]; [| reflexivity].
  destruct (between 0 middle length) eqn:Hb; [| reflexivity].
  apply between_true in Hb.
  rewrite Hsp, Hmp, Hep in Hskip.
  destruct Hskip as [H | [H | [H | H]]]; try discriminate H. tauto.
Qed.






End Loop.

Lemma C3_skipped_character_witness :
  exists surface',
    letter_step (env := Sample.env)
      {| letter_spacing := 1; x_align := 0; y_align := 0; last_r := 0;
         following := Some (Sample.line_path, 102); draw_as_text := false |}
      1 (None, None, None, None, None) "b"
      (with_text_path_width Sample.surface 200, EMPTY_BOUNDING_BOX)
      = Done (surface', EMPTY_BOUNDING_BOX) /\
    calls (context surface') = [] /\
    glyphs (context surface') = [] /\
    text_path_width surface' = 200 + (10 + 1).
Proof.
  apply (C3_skipped_character (env := Sample.env)
           {| letter_spacing := 1; x_align := 0; y_align := 0; last_r := 0;
              following := Some (Sample.line_path, 102); draw_as_text := false |}
           1 None None None None None "b"
           (with_text_path_width Sample.surface 200) EMPTY_BOUNDING_BOX
           Sample.line_path 102 (0 + distance 0 0 100 0));
    [reflexivity | reflexivity |].
  right. right. right. cbn. lra.
Defined.

(** ** Rotations *)



Section Rotation.

Context {env : Collaborators}.


End Rotation.




(** ** The node without text *)

Section NoText.

Context {env : Collaborators}.

Lemma glyphs_log (c : context_call) (ctx : Context) :
  is_glyph c = false -> glyphs (log c ctx) = glyphs ctx.
Proof.
  intros H. unfold glyphs, log. cbn [calls].
  rewrite filter_app. cbn. rewrite H, app_nil_r. reflexivity.
Qed.

Lemma initial_context_font_quiet (s : Surface) (n : node) :
  cursor_position (initial_context_font s n) = cursor_position s /\
  glyphs (context (initial_context_font s n)) = glyphs (context s).
Proof.
  split; [reflexivity |].
  unfold initial_context_font, glyphs. cbn [context with_context calls
    ctx_set_font_size ctx_select_font_face].
  rewrite !filter_app. cbn. rewrite !app_nil_r. reflexivity.
Qed.

Lemma get_single_quiet (s : Surface) (sub : node) :
  cursor_position (snd (get_single_node_text_extends s sub)) = cursor_position s /\
  glyphs (context (snd (get_single_node_text_extends s sub))) = glyphs (context s).
Proof.
  split; [reflexivity |].
  unfold get_single_node_text_extends, initial_context_font, glyphs.
  cbn. rewrite !filter_app. cbn. rewrite !app_nil_r. reflexivity.
Qed.

Lemma measure_fold_quiet (n : node) :
  forall l s acc,
    cursor_position (fst (fold_left (measure_step n) l (s, acc)))
      = cursor_position s /\
    glyphs (context (fst (fold_left (measure_step n) l (s, acc))))
      = glyphs (context s).
Proof.
  induction l as [| a l IH]; intros s acc; [split; reflexivity |].
  cbn [fold_left]. unfold measure_step at 2 4.
  destruct acc as [[[xb yb] w] h].
  destruct (get_single_quiet s a) as [Hc Hg].
  destruct (get_single_node_text_extends s a) as [e s1]. cbn [snd] in Hc, Hg.
  destruct (same_node a n);
    match goal with
    | |- context [fold_left _ l (s1, ?acc')] =>
        destruct (IH s1 acc') as [Hc' Hg']
    end; rewrite Hc', Hg'; auto.
Qed.

Lemma get_node_text_extents_quiet (s : Surface) (n : node) :
  cursor_position (snd (get_node_text_extents s n)) = cursor_position s /\
  glyphs (context (snd (get_node_text_extents s n))) = glyphs (context s).
Proof.
  unfold get_node_text_extents.
  pose proof (measure_fold_quiet n (iter_nodes (enclosing_text_node n)) s
                (0, 0, 0, 0)) as H.
  destruct (fold_left _ _ _) as [s' [[[xb yb] w] h]]. exact H.
Qed.

Lemma prepare_path_quiet (s : Surface) (n : node) (tp : option path)
    (xb xa : R) (s' : Surface) (bb : bounding_box) (f : option (path * R)) :
  prepare_path s n tp xb xa = Done (s', bb, f) ->
  cursor_position s' = cursor_position s /\
  glyphs (context s') = glyphs (context s).
Proof.
  unfold prepare_path. intros H. destruct tp as [cairo_path |].
  - destruct (path_length cairo_path) as [total |]; [| discriminate H].
    cbn [bind] in H.
    destruct (size _ _ _) as [start_offset |]; [| discriminate H].
    cbn [bind] in H. injection H as <- _ _.
    split.
    + destruct (node_tag n =? "textPath"); reflexivity.
    + assert (Hg : glyphs (context (call new_path
                     (with_stroke_and_fill
                        (with_stroke_and_fill (call new_path s) false) true)))
                   = glyphs (context s)).
      { unfold call. cbn [context with_context with_stroke_and_fill].
        rewrite !glyphs_log by reflexivity. reflexivity. }
      destruct (node_tag n =? "textPath"); exact Hg.
  - injection H as <- _ _. split; reflexivity.
Qed.

Ltac bind_inv H :=
  match type of H with
  | bind ?m _ = Done _ =>
      let E := fresh "E" in
      destruct m eqn:E; cbn [bind] in H; [| discriminate H]
  end.

(** C8: after [text] on a node without literal text, no glyph has been
    emitted and the shared cursor stands at (first element of the x list, or
    the cursor's x when the list is empty) + (first element of the dx list,
    or 0), and likewise for y and dy; with x="5" y="5" and neither dx nor
    dy, resolved to the lengths 5 and 5, the cursor ends at (5, 5). *)
Theorem C8_no_text (surface : Surface) (n : node) (as_text : bool)
    (s' : Surface) (n' : node) :
  let measured :=
    snd (get_node_text_extents (initial_context_font surface n) n) in
  str_truthy (node_text n) = false ->
  text surface n as_text = Done (s', n') ->
  exists x y dx dy,
    length_list measured n "x" ref_x = Done x /\
    length_list measured n "y" ref_y = Done y /\
    length_list measured n "dx" ref_x = Done dx /\
    length_list measured n "dy" ref_y = Done dy /\
    cursor_position s' =
      (hd (fst (cursor_position surface)) x + hd 0 dx,
       hd (snd (cursor_position surface)) y + hd 0 dy) /\
    glyphs (context s') = glyphs (context surface) /\
    (get n "x" = Some "5" -> get n "y" = Some "5" ->
     get n "dx" = None -> get n "dy" = None ->
     normalize "5" = "5" ->
     (forall s r, size s (Some "5") r = Done 5) ->
     cursor_position s' = (5, 5)).
Proof.
  intros measured Hno H.
  unfold text in H.
  destruct (font_extents _) as [[[[ascent descent] hgt] mxa] mya].
  bind_inv H. bind_inv H.
  destruct (initial_context_font_quiet surface n) as [Hc0 Hg0].
  destruct (get_node_text_extents_quiet (initial_context_font surface n) n)
    as [Hc1 Hg1].
  fold measured in Hc1, Hg1. rewrite Hc0 in Hc1. rewrite Hg0 in Hg1.
  destruct (get_node_text_extents (initial_context_font surface n) n)
    as [e s1] eqn:He.
  cbn [snd] in measured. subst measured.
  bind_inv H. bind_inv H. bind_inv H. bind_inv H. bind_inv H. bind_inv H.
  bind_inv H. destruct a7 as [[s2 bbox] follow].
  apply prepare_path_quiet in E7. destruct E7 as [Hc2 Hg2].
  rewrite Hno in H. cbn [bind] in H.
  assert (Hs' : s' = place_cursor s2 a1 a2 a3 a4)
    by (destruct (is_valid_bounding_box bbox); congruence).
  clear H.
  assert (Hcur : cursor_position s' =
                 (hd (fst (cursor_position surface)) a1 + hd 0 a3,
                  hd (snd (cursor_position surface)) a2 + hd 0 a4)).
  { rewrite Hs'. unfold place_cursor. cbn [cursor_position with_cursor_position].
    rewrite Hc2, Hc1. destruct a1, a2, a3, a4; reflexivity. }
  exists a1, a2, a3, a4.
  do 4 (split; [reflexivity |]).
  split; [exact Hcur |].
  split; [rewrite Hs'; cbn; congruence |].
  intros Hx Hy Hdx Hdy Hnorm Hsize.
  unfold length_list in E1, E2, E3, E4.
  rewrite Hx, Hnorm in E1. rewrite Hy, Hnorm in E2.
  rewrite Hdx in E3. rewrite Hdy in E4.
  change (split " " (strip "5")) with ["5"] in E1, E2.
  cbn [mapM] in E1, E2. rewrite Hsize in E1, E2. cbn [bind] in E1, E2.
  rewrite Hcur.
  injection E1 as <-. injection E2 as <-. injection E3 as <-. injection E4 as <-.
  cbn [hd]. f_equal; ring.
Qed.

End NoText.

Lemma C8_no_text_witness :
  exists s' n',
    text (env := Sample.env) Sample.surface Sample.empty_text false
      = Done (s', n') /\
    cursor_position s' = (5, 5) /\
    glyphs (context s') = [].
Proof.
  eexists. eexists. split; [reflexivity |].
  match goal with
  | |- cursor_position ?s = _ /\ _ =>
      destruct (C8_no_text (env := Sample.env)
                  Sample.surface Sample.empty_text false s Sample.empty_text
                  eq_refl eq_refl)
        as (x & y & dx & dy & _ & _ & _ & _ & _ & Hg & H5)
  end.
  split; [| exact Hg].
  apply H5; try reflexivity.
  intros s r. cbn [size Sample.env].
  change (isdigit "5") with true. cbv iota.
  unfold float_of_digits. change (int_of_digits "5") with 5%nat.
  f_equal. simpl INR. lra.
Defined.

(** * Further properties *)

(** ** Path sampler *)

(** X1: a path without any [LineTo], whatever it moves to or closes, has
    length 0. *)
Theorem X1_path_length_without_lines (p : path) :
  has_line p = false -> path_length p = Done 0.
Proof. intros H. apply path_length_loop_no_line. exact H. Qed.

Lemma X1_path_length_without_lines_witness :
  path_length [MoveTo (1, 2); ClosePath; MoveTo (3, 4)] = Done 0.
Proof. apply X1_path_length_without_lines. reflexivity. Defined.

Lemma lines_length_sum (pts : list point) :
  forall t o,
    path_length_loop (map LineTo pts) t (Some o)
    = Done (t + sum_R (segment_lengths o pts)).
Proof.
  induction pts as [| q pts IH]; intros t o; cbn.
  - apply f_equal. unfold sum_R. cbn. ring.
  - rewrite IH. apply f_equal. unfold sum_R. cbn. ring.
Qed.

Lemma segment_lengths_nonneg (pts : list point) :
  forall o, 0 <= sum_R (segment_lengths o pts).
Proof.
  induction pts as [| q pts IH]; intros o; unfold sum_R in *; cbn; [lra |].
  pose proof (distance_nonneg (fst o) (snd o) (fst q) (snd q)).
  pose proof (IH q). lra.
Qed.

(** X2: the length of a single sub-path is the sum of the distances between
    its consecutive points, and is never negative. *)
Theorem X2_polyline_length (p0 : point) (pts : list point) :
  path_length (polyline p0 pts) = Done (sum_R (segment_lengths p0 pts)) /\
  0 <= sum_R (segment_lengths p0 pts).
Proof.
  split; [| apply segment_lengths_nonneg].
  unfold path_length, polyline. cbn [path_length_loop].
  rewrite lines_length_sum. apply f_equal. ring.
Qed.

(** The point the pen is at after some items. *)
Lemma path_length_loop_app (p r : path) :
  forall t old,
    path_length_loop (p ++ r) t old
    = (t' <- path_length_loop p t old ;;
       path_length_loop r t'
         (match last_point p with Some o => Some o | None => old end)).
Proof.
  induction p as [| [q | q |] p IH]; intros t old; cbn [app path_length_loop].
  - reflexivity.
  - rewrite IH. cbn [last_point item_point]. destruct (last_point p); reflexivity.
  - destruct old as [o |]; [| reflexivity].
    rewrite IH. cbn [last_point item_point]. destruct (last_point p); reflexivity.
  - rewrite IH. cbn [last_point item_point]. destruct (last_point p); reflexivity.
Qed.

Lemma path_length_loop_shift (p : path) (c : R) :
  forall t old L,
    path_length_loop p t old = Done L ->
    path_length_loop p (t + c) old = Done (L + c).
Proof.
  induction p as [| [q | q |] p IH]; intros t old L H; cbn in *.
  - injection H as <-. reflexivity.
  - eauto.
  - destruct old as [o |]; [| discriminate].
    replace (t + c + distance (fst o) (snd o) (fst q) (snd q))
      with (t + distance (fst o) (snd o) (fst q) (snd q) + c) by ring.
    eauto.
  - eauto.
Qed.

(** X3: sub-paths are measured independently: the length of a path followed
    by a sub-path that opens with its own [MoveTo] is the sum of the two
    lengths; nothing is counted for the jump between them. *)
Theorem X3_path_length_of_sub_paths (p : path) (q : point) (r : path)
    (Lp Lq : R) :
  path_length p = Done Lp ->
  path_length (MoveTo q :: r) = Done Lq ->
  path_length (p ++ MoveTo q :: r) = Done (Lp + Lq).
Proof.
  unfold path_length. intros Hp Hq.
  rewrite path_length_loop_app, Hp. cbn [bind path_length_loop] in *.
  apply (path_length_loop_shift _ Lp) in Hq.
  rewrite Rplus_0_l in Hq. rewrite Hq. apply f_equal. ring.
Qed.

Lemma X3_path_length_of_sub_paths_witness :
  path_length ([MoveTo (0, 0); LineTo (3, 0)] ++ MoveTo (9, 9) :: [LineTo (9, 9)])
  = Done (0 + distance 0 0 3 0 + (0 + distance 9 9 9 9)).
Proof.
  apply X3_path_length_of_sub_paths; reflexivity.
Defined.

Lemma sampler_raises (p : path) (w : R) :
  forall t,
    line_before_move p = true ->
    path_length_loop p t None = Raise UnboundLocalError /\
    point_following_path_loop p w t None = Raise UnboundLocalError.
Proof.
  induction p as [| [q | q |] p IH]; intros t H; cbn in *;
    try discriminate; auto.
Qed.

Lemma sampler_returns (p : path) (w : R) :
  forall t old,
    (old <> None \/ line_before_move p = false) ->
    (exists L, path_length_loop p t old = Done L) /\
    (exists r, point_following_path_loop p w t old = Done r).
Proof.
  induction p as [| [q | q |] p IH]; intros t old H; cbn in *.
  - eauto.
  - apply IH. left. discriminate.
  - destruct old as [o |].
    + destruct (IH (t + distance (fst o) (snd o) (fst q) (snd q)) (Some q))
        as [HL Hr]; [left; discriminate |].
      split; [exact HL |].
      destruct (Rlt_dec _ w); eauto.
    + destruct H as [H | H]; [congruence | discriminate].
  - apply IH. exact H.
Qed.

(** X4: a [LineTo] that comes before any [MoveTo] makes both [path_length]
    and [point_following_path] (for every target) raise [UnboundLocalError];
    on every other path, the empty one included, both return. *)
Theorem X4_sampler_errors (p : path) (w : R) :
  (line_before_move p = true ->
     path_length p = Raise UnboundLocalError /\
     point_following_path p w = Raise UnboundLocalError) /\
  (line_before_move p = false ->
     (exists L, path_length p = Done L) /\
     (exists r, point_following_path p w = Done r)).
Proof.
  split; intros H.
  - apply sampler_raises. exact H.
  - apply sampler_returns. right. exact H.
Qed.

Lemma X4_sampler_errors_witness :
  (path_length [ClosePath; LineTo (1, 1); MoveTo (0, 0)]
     = Raise UnboundLocalError /\
   point_following_path [ClosePath; LineTo (1, 1); MoveTo (0, 0)] 5
     = Raise UnboundLocalError) /\
  ((exists L, path_length [MoveTo (0, 0); LineTo (1, 1)] = Done L) /\
   (exists r, point_following_path [MoveTo (0, 0); LineTo (1, 1)] 5 = Done r)).
Proof.
  split.
  - apply (proj1 (X4_sampler_errors [ClosePath; LineTo (1, 1); MoveTo (0, 0)] 5)).
    reflexivity.
  - apply (proj2 (X4_sampler_errors [MoveTo (0, 0); LineTo (1, 1)] 5)).
    reflexivity.
Defined.

(** X5: on any path whose length [L] can be taken, several sub-paths or
    not, the sampler answers [None] exactly when the path has no [LineTo] at
    all or the target lies beyond [L]. *)
Theorem X5_sampler_none (p : path) (L w : R) :
  path_length p = Done L ->
  (point_following_path p w = Done None <-> has_line p = false \/ L < w).
Proof. apply point_following_path_loop_none. Qed.

Lemma X5_sampler_none_witness :
  point_following_path [MoveTo (0, 0); MoveTo (7, 7)] (-3) = Done None
  <-> has_line [MoveTo (0, 0); MoveTo (7, 7)] = false \/ 0 < -3.
Proof. apply X5_sampler_none. reflexivity. Defined.

(** While the target is ahead of the length walked, the sampler walks on. *)
Lemma point_following_path_loop_app (p r : path) (w : R) :
  forall t old L,
    path_length_loop p t old = Done L ->
    L < w ->
    point_following_path_loop (p ++ r) w t old
    = point_following_path_loop r w L
        (match last_point p with Some o => Some o | None => old end).
Proof.
  induction p as [| [q | q |] p IH]; intros t old L H Hw;
    cbn [app path_length_loop point_following_path_loop] in *.
  - injection H as <-. reflexivity.
  - rewrite (IH _ _ _ H Hw). cbn [last_point item_point].
    destruct (last_point p); reflexivity.
  - destruct old as [o |]; [| discriminate].
    pose proof (path_length_loop_mono _ _ _ _ H) as Hm.
    destruct (Rlt_dec _ w) as [_ | Hn]; [| lra].
    rewrite (IH _ _ _ H Hw). cbn [last_point item_point].
    destruct (last_point p); reflexivity.
  - rewrite (IH _ _ _ H Hw). cbn [last_point item_point].
    destruct (last_point p); reflexivity.
Qed.

Lemma distance_pos (o q : point) :
  o <> q -> 0 < distance (fst o) (snd o) (fst q) (snd q).
Proof.
  intros Hne.
  destruct (distance_nonneg (fst o) (snd o) (fst q) (snd q)) as [H | H];
    [exact H |].
  symmetry in H. apply distance_zero in H. destruct H as [Hx Hy].
  destruct o, q. cbn in *. congruence.
Qed.

(** X6: inside a segment the sampler interpolates linearly.  When the items
    before a [LineTo q] have length [t] and end at [o], with [o] and [q]
    distinct, every target [w] with [t < w <= t + |oq|] is answered by the
    point that lies [w - t] from [o] on the straight line from [o] to [q],
    whatever follows in the path. *)
Theorem X6_sampler_interpolates (p : path) (o q : point) (rest : path)
    (t w : R) :
  path_length p = Done t ->
  last_point p = Some o ->
  o <> q ->
  t < w <= t + distance (fst o) (snd o) (fst q) (snd q) ->
  point_following_path (p ++ LineTo q :: rest) w
  = Done (Some (interpolate o q (w - t))).
Proof.
  intros Hp Ho Hne [Hlo Hhi].
  unfold point_following_path.
  rewrite (point_following_path_loop_app p _ w 0 None t Hp Hlo), Ho.
  cbn [point_following_path_loop].
  destruct (Rlt_dec _ w) as [Hlt | _]; [lra |].
  pose proof (distance_pos o q Hne) as Hd.
  destruct o as [ox oy], q as [qx qy]. unfold interpolate. cbn [fst snd] in *.
  unfold point_angle.
  destruct (atan2_polar (qy - oy) (qx - ox)) as [Hc Hs].
  fold (distance ox oy qx qy) in Hc, Hs.
  set (d := distance ox oy qx qy) in *.
  set (a := atan2 (qy - oy) (qx - ox)) in *.
  assert (Hcos : cos a = (qx - ox) / d) by (rewrite <- Hc; field; lra).
  assert (Hsin : sin a = (qy - oy) / d) by (rewrite <- Hs; field; lra).
  rewrite Hcos, Hsin.
  apply f_equal, f_equal, f_equal2; field; lra.
Qed.

Lemma X6_sampler_interpolates_witness :
  point_following_path ([MoveTo (0, 0); LineTo (3, 0)] ++ LineTo (3, 4) :: []) 5
  = Done (Some (interpolate (3, 0) (3, 4) (5 - 3))).
Proof.
  apply X6_sampler_interpolates.
  - unfold path_length. cbn. rewrite distance_horizontal by lra.
    apply f_equal. ring.
  - reflexivity.
  - intros H. injection H as H. lra.
  - pose proof (distance_nonneg 3 0 3 4) as Hd.
    assert (H4 : distance 3 0 3 4 = 4).
    { unfold distance.
      replace ((3 - 3) * (3 - 3) + (4 - 0) * (4 - 0)) with (4²)
        by (unfold Rsqr; ring).
      apply sqrt_Rsqr. lra. }
    cbn [fst snd]. rewrite H4. lra.
Defined.

(** ** Font context setup *)





Lemma split_hd_no_sep (sep : ascii) (s : string) :
  occurs sep (hd EmptyString (split sep s)) = false.
Proof.
  induction s as [| c s IH]; [reflexivity |].
  cbn [split]. destruct (Ascii.eqb c sep) eqn:Hc; [reflexivity |].
  destruct (split sep s) as [| w ws]; cbn [hd occurs] in *.
  - rewrite Hc. reflexivity.
  - rewrite Hc, IH. reflexivity.
Qed.

Lemma lstrip_occurs (drop : ascii -> bool) (c : ascii) (s : string) :
  occurs c s = false -> occurs c (lstrip drop s) = false.
Proof.
  induction s as [| a s IH]; [reflexivity |].
  cbn [lstrip]. destruct (drop a); [| auto].
  cbn [occurs]. intros H. apply orb_false_iff in H. apply IH, H.
Qed.

Lemma rstrip_occurs (drop : ascii -> bool) (c : ascii) (s : string) :
  occurs c s = false -> occurs c (rstrip drop s) = false.
Proof.
  induction s as [| a s IH]; [reflexivity |].
  cbn [rstrip occurs]. intros H. apply orb_false_iff in H. destruct H as [Ha Hs].
  specialize (IH Hs).
  destruct (rstrip drop s) as [| b t].
  - destruct (drop a); cbn [occurs]; [reflexivity |].
    rewrite Ha. reflexivity.
  - cbn [occurs] in *. rewrite Ha. exact IH.
Qed.

Lemma lstrip_first (drop : ascii -> bool) (s : string) :
  kept drop (first_char (lstrip drop s)).
Proof.
  induction s as [| a s IH]; [exact I |].
  cbn [lstrip]. destruct (drop a) eqn:Ha; [exact IH | exact Ha].
Qed.

Lemma rstrip_last (drop : ascii -> bool) (s : string) :
  kept drop (last_char (rstrip drop s)).
Proof.
  induction s as [| a s IH]; [exact I |].
  cbn [rstrip]. destruct (rstrip drop s) as [| b t] eqn:Hr.
  - destruct (drop a) eqn:Ha; [exact I | exact Ha].
  - change (last_char (String a (String b t)))
      with (match last_char (String b t) with
            | Some x => Some x
            | None => Some a
            end).
    destruct (last_char (String b t)) as [x |] eqn:Hl; [exact IH |].
    cbn in Hl. destruct (last_char t); discriminate.
Qed.

Lemma lstrip_last (drop : ascii -> bool) (s : string) :
  kept drop (last_char s) -> kept drop (last_char (lstrip drop s)).
Proof.
  induction s as [| a s IH]; [auto |].
  cbn [lstrip]. destruct (drop a) eqn:Ha; [| auto].
  intros H. apply IH.
  cbn [last_char] in H. destruct (last_char s); [exact H |].
  cbn in H. congruence.
Qed.

(** X8: the family handed to cairo is one clean name: it holds no comma
    and neither begins nor ends with a quote or a space; it is 'sans-serif'
    when the attribute is missing or empty. *)
Theorem X8_font_family (surface : Surface) (n : node) :
  let fam := family (font (context (initial_context_font surface n))) in
  occurs "," fam = false /\
  kept is_quote_or_space (first_char fam) /\
  kept is_quote_or_space (last_char fam) /\
  (str_truthy (get n "font-family") = false -> fam = "sans-serif").
Proof.
  intros fam.
  assert (Hf : fam = strip_with is_quote_or_space
                       (hd EmptyString
                           (split "," (str_or (get n "font-family") "sans-serif"))))
    by reflexivity.
  rewrite Hf. unfold strip_with. split; [| split; [| split]].
  - apply lstrip_occurs, rstrip_occurs, split_hd_no_sep.
  - apply lstrip_first.
  - apply lstrip_last, rstrip_last.
  - intros H. unfold str_or. rewrite H. reflexivity.
Qed.

Lemma X8_font_family_witness :
  family (font (context (initial_context_font Sample.surface Sample.empty_text)))
  = "sans-serif".
Proof.
  apply (X8_font_family Sample.surface Sample.empty_text). reflexivity.
Defined.

(** ** Text extent aggregator *)

Lemma undisturbed_refl (s : Surface) : undisturbed s s.
Proof.
  unfold undisturbed. split; [exists []; rewrite app_nil_r; reflexivity |].
  repeat split; reflexivity.
Qed.

Lemma undisturbed_trans (s1 s2 s3 : Surface) :
  undisturbed s1 s2 -> undisturbed s2 s3 -> undisturbed s1 s3.
Proof.
  unfold undisturbed.
  intros ([m1 H1] & Ha) ([m2 H2] & Hb).
  split.
  - exists (m1 ++ m2). rewrite H2, H1, app_assoc. reflexivity.
  - repeat match goal with H : _ /\ _ |- _ => destruct H end.
    repeat split; congruence.
Qed.

Section Quiet.

Context {env : Collaborators}.

Lemma get_single_undisturbed (s : Surface) (sub : node) :
  undisturbed s (snd (get_single_node_text_extends s sub)).
Proof.
  unfold undisturbed. split; [| split].
  - eexists. unfold get_single_node_text_extends, initial_context_font.
    cbn. rewrite <- !app_assoc. reflexivity.
  - apply get_single_quiet.
  - repeat split; reflexivity.
Qed.

Lemma measure_fold_undisturbed (n : node) :
  forall l s acc,
    undisturbed s (fst (fold_left (measure_step n) l (s, acc))).
Proof.
  induction l as [| a l IH]; intros s acc; [apply undisturbed_refl |].
  cbn [fold_left]. unfold measure_step at 2.
  destruct acc as [[[xb yb] w] h].
  pose proof (get_single_undisturbed s a) as Hs.
  destruct (get_single_node_text_extends s a) as [e s1]. cbn [snd] in Hs.
  destruct (same_node a n);
    (eapply undisturbed_trans; [exact Hs | apply IH]).
Qed.

Lemma get_node_text_extents_undisturbed (surface : Surface) (n : node) :
  undisturbed surface (snd (get_node_text_extents surface n)).
Proof.
  unfold get_node_text_extents.
  pose proof (measure_fold_undisturbed n (iter_nodes (enclosing_text_node n))
                surface (0, 0, 0, 0)) as H.
  destruct (fold_left _ _ _) as [s' [[[xb yb] w] h]]. exact H.
Qed.

(** X9: measuring a node leaves the surface as it found it: the context
    has only received further calls, none of which paints a glyph, its font
    and saved fonts are back to what they were, and the cursor, the delta
    accumulator, the path width and the rest of the surface are untouched. *)
Theorem X9_measuring_leaves_no_trace (surface : Surface) (n : node) :
  undisturbed surface (snd (get_node_text_extents surface n)).
Proof. apply get_node_text_extents_undisturbed. Qed.



End Quiet.


(** X11: the container a node is measured in is the node itself or one of
    its ancestors; it is tagged 'text' unless it is the node itself; a node
    that is tagged 'text' is its own container, even inside another text;
    and the container is its own container. *)
Theorem X11_enclosing_text_node (n : node) :
  In (enclosing_text_node n) (ancestry (focus n) (above n)) /\
  (node_tag (enclosing_text_node n) = "text" \/ enclosing_text_node n = n) /\
  (node_tag n = "text" -> enclosing_text_node n = n) /\
  enclosing_text_node (enclosing_text_node n) = enclosing_text_node n.
Proof.
  assert (Hhead : forall m, exists rest,
             ancestry (focus m) (above m) = m :: rest).
  { intros [t up]. destruct up; eexists; reflexivity. }
  assert (Hself : forall m, is_text_node m = true -> nearest_text_node m = m).
  { intros m Hm. unfold nearest_text_node.
    destruct (Hhead m) as [rest ->]. cbn [find]. rewrite Hm. reflexivity. }
  rewrite !enclosing_text_node_nearest.
  assert (Hn : nearest_text_node n
               = match find is_text_node (ancestry (focus n) (above n)) with
                 | Some a => a
                 | None => n
                 end) by reflexivity.
  destruct (Hhead n) as [rest Hr].
  destruct (find is_text_node (ancestry (focus n) (above n))) as [a |] eqn:Hf;
    rewrite Hn.
  - pose proof (find_some _ _ Hf) as [Hin Ha].
    split; [exact Hin |].
    split; [left; apply String.eqb_eq; exact Ha |].
    split; [| apply Hself; exact Ha].
    intros Ht. apply String.eqb_eq in Ht.
    rewrite Hr in Hf. cbn [find] in Hf.
    unfold is_text_node at 1 in Hf. rewrite Ht in Hf. congruence.
  - split; [rewrite Hr; left; reflexivity |].
    split; [right; reflexivity |].
    split; [reflexivity | exact Hn].
Qed.

Lemma X11_enclosing_text_node_witness :
  enclosing_text_node
    {| focus := Tree Run.text_data []; above := above Run.first_span |}
  = {| focus := Tree Run.text_data []; above := above Run.first_span |}.
Proof.
  apply (proj1 (proj2 (proj2 (X11_enclosing_text_node
           {| focus := Tree Run.text_data []; above := above Run.first_span |})))).
  reflexivity.
Defined.

(** ** Walking the tree *)

Lemma forest_size_length (d : node_data) (up : list crumb) (rs : list tree) :
  Forall (fun c => forall up', List.length (iter_tree c up') = tree_size c) rs ->
  forall ls,
    List.length (iter_forest d up ls rs)
    = (fix forest_size (ts : list tree) : nat :=
         match ts with
         | [] => 0%nat
         | c :: ts' => (tree_size c + forest_size ts')%nat
         end) rs.
Proof.
  induction 1 as [| c rs Hc _ IH]; intros ls; [reflexivity |].
  rewrite iter_forest_cons, length_app, Hc, IH. reflexivity.
Qed.

Lemma iter_tree_length (t : tree) :
  forall up, List.length (iter_tree t up) = tree_size t.
Proof.
  induction t as [d cs IH] using tree_forall_ind. intros up.
  rewrite iter_tree_eq. cbn [List.length tree_size]. f_equal.
  apply forest_size_length. exact IH.
Qed.

(** The place of a node below the children [rs]: some steps, then the index
    of a child, at least the number of children already passed, then the
    place of the parent. *)
Lemma iter_forest_address (d : node_data) (up : list crumb) (z : node) :
  forall rs ls,
    In z (iter_forest d up ls rs) ->
    exists pre k,
      address z = pre ++ k :: map (fun c => List.length (lefts c)) up /\
      (List.length ls <= k)%nat.
Proof.
  intros rs ls Hz. apply in_iter_forest in Hz.
  destruct Hz as (l1 & c & rs2 & _ & Hz).
  apply iter_tree_above in Hz. destruct Hz as [pre Hpre].
  exists (map (fun c => List.length (lefts c)) pre), (List.length (ls ++ l1)).
  split.
  - unfold address. rewrite Hpre, map_app. reflexivity.
  - rewrite length_app. lia.
Qed.

Lemma address_index_inj (p1 p2 : list nat) (k1 k2 : nat) (tail : list nat) :
  p1 ++ k1 :: tail = p2 ++ k2 :: tail -> k1 = k2.
Proof.
  intros H.
  change (k1 :: tail) with ([k1] ++ tail) in H.
  change (k2 :: tail) with ([k2] ++ tail) in H.
  rewrite !app_assoc in H. apply app_inv_tail in H.
  apply app_inj_tail in H. tauto.
Qed.

Lemma iter_forest_nodup (d : node_data) (up : list crumb) (rs : list tree) :
  Forall (fun c => forall up', NoDup (map address (iter_tree c up'))) rs ->
  forall ls, NoDup (map address (iter_forest d up ls rs)).
Proof.
  induction 1 as [| c rs Hc _ IH]; intros ls; [constructor |].
  rewrite iter_forest_cons, map_app.
  apply NoDup_app; [apply Hc | apply IH |].
  intros a H1 H2.
  apply in_map_iff in H1. destruct H1 as (z1 & <- & H1).
  apply in_map_iff in H2. destruct H2 as (z2 & Heq & H2).
  apply iter_tree_above in H1. destruct H1 as [pre1 Hp1].
  apply iter_forest_address in H2. destruct H2 as (pre2 & k & Hp2 & Hk).
  rewrite Hp2 in Heq. unfold address in Heq. rewrite Hp1, map_app in Heq.
  cbn [map lefts] in Heq.
  apply address_index_inj in Heq. rewrite length_app in Hk. cbn in Hk. lia.
Qed.

Lemma iter_tree_nodup (t : tree) :
  forall up, NoDup (map address (iter_tree t up)).
Proof.
  induction t as [d cs IH] using tree_forall_ind. intros up.
  rewrite iter_tree_eq. cbn [map]. constructor.
  - intros Hin. apply in_map_iff in Hin. destruct Hin as (z & Heq & Hz).
    apply iter_forest_address in Hz. destruct Hz as (pre & k & Hp & _).
    rewrite Hp in Heq. unfold address in Heq. cbn [above] in Heq.
    apply (f_equal (@List.length nat)) in Heq.
    rewrite length_app in Heq. cbn in Heq. lia.
  - apply iter_forest_nodup. exact IH.
Qed.

(** X12: [iter_nodes] yields the node first and then every node below it,
    each exactly once: as many nodes as the subtree has, all at different
    places of the document, and all of them at or below the node. *)
Theorem X12_iter_nodes_visits_once (n : node) :
  hd_error (iter_nodes n) = Some n /\
  List.length (iter_nodes n) = tree_size (focus n) /\
  NoDup (map address (iter_nodes n)) /\
  (forall z, In z (iter_nodes n) -> exists steps, above z = steps ++ above n).
Proof.
  unfold iter_nodes. split; [| split; [| split]].
  - destruct n as [[d cs] up]. reflexivity.
  - apply iter_tree_length.
  - apply iter_tree_nodup.
  - apply iter_tree_above.
Qed.

(** ** Alignment, again *)

(** X13: for a horizontal font, a display-anchor of 'middle', 'top' or
    'bottom' decides the vertical offset whatever the baseline attributes
    say; a non-empty dominant-baseline hides alignment-baseline; an empty
    dominant-baseline counts as a missing one. *)
Theorem X13_y_align_precedence
    (ascent descent max_x_advance y_bearing_ height : R) :
  0 < max_x_advance ->
  (forall d b,
     y_align_of ascent descent max_x_advance 0 y_bearing_ height
       (Some "middle") d b = - height / 2 - y_bearing_ /\
     y_align_of ascent descent max_x_advance 0 y_bearing_ height
       (Some "top") d b = - y_bearing_ /\
     y_align_of ascent descent max_x_advance 0 y_bearing_ height
       (Some "bottom") d b = - height - y_bearing_) /\
  (forall a d b b', nonempty d = true ->
     y_align_of ascent descent max_x_advance 0 y_bearing_ height a (Some d) b
     = y_align_of ascent descent max_x_advance 0 y_bearing_ height a (Some d) b') /\
  (forall a b,
     y_align_of ascent descent max_x_advance 0 y_bearing_ height
       a (Some EmptyString) b
     = y_align_of ascent descent max_x_advance 0 y_bearing_ height a None b).
Proof.
  intros Hx.
  assert (H0 : is_zero 0 = true) by (apply is_zero_true; reflexivity).
  split; [| split].
  - intros d b. unfold y_align_of.
    destruct (Rlt_dec 0 max_x_advance) as [_ | Hn]; [| contradiction].
    rewrite H0. cbn. auto.
  - intros a d b b' Hd. unfold y_align_of. cbn [str_truthy]. rewrite Hd.
    reflexivity.
  - intros a b. reflexivity.
Qed.

Lemma X13_y_align_precedence_witness :
  y_align_of 10 3 12 0 (-8) 9 (Some "top") (Some "central") None = - (-8) /\
  y_align_of 10 3 12 0 (-8) 9 None (Some "hanging") (Some "bottom")
  = y_align_of 10 3 12 0 (-8) 9 None (Some "hanging") None.
Proof.
  split.
  - apply (proj1 (X13_y_align_precedence 10 3 12 (-8) 9 ltac:(lra))).
  - apply (proj1 (proj2 (X13_y_align_precedence 10 3 12 (-8) 9 ltac:(lra)))).
    reflexivity.
Defined.

(** ** The per-character loop, as a whole *)

Section LoopEffects.

Context {env : Collaborators}.

Ltac bind_inv H :=
  match type of H with
  | bind ?m _ = Done _ =>
      let E := fresh "E" in
      destruct m eqn:E; cbn [bind] in H; [| discriminate H]
  end.

Lemma glyphs_call (c : context_call) (s : Surface) :
  glyphs (context (call c s))
  = glyphs (context s) ++ (if is_glyph c then [c] else []).
Proof.
  unfold glyphs, call, log. cbn [context with_context calls].
  rewrite filter_app. cbn. destruct (is_glyph c); reflexivity.
Qed.

(** What [emit] does after a [save]: one glyph for a letter that is not
    white space, and the context back to the saved font. *)
Lemma emit_after_save (as_text : bool) (letter : string) (s : Surface)
    (f : FontSpec) (fs : list FontSpec) :
  saved (context s) = f :: fs ->
  glyphs (context (emit as_text letter s))
  = glyphs (context s)
    ++ (if isspace letter then [] else [paint as_text letter]) /\
  font (context (emit as_text letter s)) = f /\
  saved (context (emit as_text letter s)) = fs /\
  font_size (emit as_text letter s) = font_size s /\
  cursor_position (emit as_text letter s) = cursor_position s /\
  cursor_d_position (emit as_text letter s) = cursor_d_position s /\
  text_path_width (emit as_text letter s) = text_path_width s.
Proof.
  intros Hs. unfold emit, paint, ctx_restore.
  destruct (isspace letter); cbn [negb].
  - rewrite Hs. unfold glyphs. cbn. rewrite filter_app. cbn.
    rewrite !app_nil_r. repeat split; reflexivity.
  - destruct as_text; unfold call, log; cbn; rewrite Hs; unfold glyphs; cbn;
      rewrite !filter_app; cbn; rewrite ?app_nil_r; repeat split; reflexivity.
Qed.

Lemma letter_step_free_effect (L : layout) (i : nat) (x y dx dy r : option R)
    (letter : string) (s : Surface) (bb : bounding_box) :
  following L = None ->
  exists s' bb',
    letter_step L i (x, y, dx, dy, r) letter (s, bb) = Done (s', bb') /\
    font (context s') = font (context s) /\
    saved (context s') = saved (context s) /\
    glyphs (context s')
    = glyphs (context s)
      ++ (if isspace letter then [] else [paint (draw_as_text L) letter]) /\
    font_size s' = font_size s /\
    text_path_width s' = text_path_width s /\
    cursor_d_position s' = advance_deltas (cursor_d_position s) x y dx dy /\
    cursor_position s' =
      ((match x with None => fst (cursor_position s) | Some v => v end)
       + (if (i =? 0)%nat then 0 else letter_spacing L)
       + x_advance (text_extents (font (context s)) (Some letter)),
       match y with None => snd (cursor_position s) | Some v => v end).
Proof.
  intros HL. unfold letter_step. rewrite HL.
  eexists. eexists. split; [reflexivity |].
  match goal with
  | |- context [emit ?a ?l ?s0] =>
      destruct (emit_after_save a l s0 (font (context s)) (saved (context s))
                  eq_refl)
        as (Hg & Hf & Hsv & Hfs & Hcp & Hcd & Htp)
  end.
  cbn [context font saved font_size text_path_width cursor_d_position
       cursor_position with_cursor_position].
  rewrite Hg, Hf, Hsv, Hfs, Hcd, Htp.
  split; [reflexivity |]. split; [reflexivity |].
  split.
  { rewrite !glyphs_call. cbn [is_glyph]. rewrite !app_nil_r.
    unfold glyphs. cbn. rewrite filter_app. cbn. rewrite app_nil_r.
    reflexivity. }
  split; [reflexivity |]. split; [reflexivity |]. split; [reflexivity |].
  cbn. destruct (i =? 0)%nat; f_equal; ring.
Qed.

Lemma letter_step_path_effect (L : layout) (i : nat) (x y dx dy r : option R)
    (letter : string) (s : Surface) (bb : bounding_box)
    (cairo_path : path) (length : R) (s' : Surface) (bb' : bounding_box) :
  following L = Some (cairo_path, length) ->
  letter_step L i (x, y, dx, dy, r) letter (s, bb) = Done (s', bb') ->
  font (context s') = font (context s) /\
  saved (context s') = saved (context s) /\
  (glyphs (context s') = glyphs (context s) \/
   isspace letter = false /\
   glyphs (context s') = glyphs (context s) ++ [paint (draw_as_text L) letter]) /\
  font_size s' = font_size s /\
  cursor_position s' = cursor_position s /\
  cursor_d_position s' = advance_deltas (cursor_d_position s) x y dx dy /\
  text_path_width s' =
    text_path_width s
    + (if (i =? 0)%nat
       then x_advance (text_extents (font (context s)) (Some letter))
       else x_advance (text_extents (font (context s)) (Some letter))
            + letter_spacing L).
Proof.
  intros HL H. unfold letter_step in H. rewrite HL in H.
  cbn [cursor_d_position with_cursor_d_position text_path_width context] in H.
  bind_inv H. bind_inv H. bind_inv H.
  assert (Hskip : forall s0 b0, Done (with_text_path_width
                     (with_cursor_d_position s
                        (advance_deltas (cursor_d_position s) x y dx dy))
                     (text_path_width s
                      + (if (i =? 0)%nat
                         then x_advance (text_extents (font (context s)) (Some letter))
                         else x_advance (text_extents (font (context s)) (Some letter))
                              + letter_spacing L)), bb) = Done (s0, b0) ->
            font (context s0) = font (context s) /\
            saved (context s0) = saved (context s) /\
            (glyphs (context s0) = glyphs (context s) \/
             isspace letter = false /\
             glyphs (context s0)
             = glyphs (context s) ++ [paint (draw_as_text L) letter]) /\
            font_size s0 = font_size s /\
            cursor_position s0 = cursor_position s /\
            cursor_d_position s0
            = advance_deltas (cursor_d_position s) x y dx dy /\
            text_path_width s0 =
              text_path_width s
              + (if (i =? 0)%nat
                 then x_advance (text_extents (font (context s)) (Some letter))
                 else x_advance (text_extents (font (context s)) (Some letter))
                      + letter_spacing L)).
  { intros s0 b0 H0. injection H0 as <- _. repeat split; auto. }
  destruct a as [sp |]; [| apply (Hskip _ _ H)].
  destruct a0 as [mp |]; [| apply (Hskip _ _ H)].
  destruct a1 as [ep |]; [| apply (Hskip _ _ H)].
  destruct (between 0 _ length); [| apply (Hskip _ _ H)].
  clear Hskip. injection H as <- _.
  match goal with
  | |- context [emit ?a ?l ?s0] =>
      destruct (emit_after_save a l s0 (font (context s)) (saved (context s))
                  eq_refl)
        as (Hg & Hf & Hsv & Hfs & Hcp & Hcd & Htp)
  end.
  rewrite Hg, Hf, Hsv, Hfs, Hcp, Hcd, Htp.
  split; [reflexivity |]. split; [reflexivity |].
  split.
  { rewrite !glyphs_call. cbn [is_glyph]. rewrite !app_nil_r.
    assert (Hs : forall c, glyphs (ctx_save c) = glyphs c).
    { intros c. unfold glyphs. cbn. rewrite filter_app. cbn. apply app_nil_r. }
    cbn [context with_context with_text_path_width with_cursor_d_position].
    rewrite Hs.
    destruct (isspace letter); [left; apply app_nil_r | right; auto]. }
  repeat split; reflexivity.
Qed.

End LoopEffects.

Lemma zip_letters_letters (word : list string) :
  forall xl yl dxl dyl rl,
    map snd (zip_letters xl yl dxl dyl rl word) = word.
Proof.
  induction word as [| c word IH]; intros; cbn; [| rewrite IH]; reflexivity.
Qed.

Lemma zip_letters_continuing (word : list string) :
  forall dxl dyl rl,
    Forall (fun p => pos_x p = None /\ pos_y p = None)
           (zip_letters [] [] dxl dyl rl word).
Proof.
  induction word as [| c word IH]; intros; cbn [zip_letters]; constructor.
  - split; reflexivity.
  - apply IH.
Qed.

Section WholeLoop.

Context {env : Collaborators}.

Lemma letters_loop_free_effect (L : layout) :
  following L = None ->
  forall positions i st,
    exists st',
      letters_loop L i positions st = Done st' /\
      font (context (fst st')) = font (context (fst st)) /\
      saved (context (fst st')) = saved (context (fst st)) /\
      glyphs (context (fst st'))
      = glyphs (context (fst st))
        ++ map (paint (draw_as_text L)) (inked positions) /\
      text_path_width (fst st') = text_path_width (fst st).
Proof.
  intros HL. induction positions as [| [pos letter] rest IH]; intros i st.
  - exists st. cbn. rewrite app_nil_r. auto.
  - destruct pos as [[[[x y] dx] dy] r]. destruct st as [s bb].
    destruct (letter_step_free_effect L i x y dx dy r letter s bb HL)
      as (s1 & b1 & Hstep & Hf & Hsv & Hg & _ & Htp & _).
    destruct (IH (S i) (s1, b1)) as (st' & Hloop & Hf' & Hsv' & Hg' & Htp').
    exists st'. cbn [letters_loop]. rewrite Hstep. cbn [bind fst] in *.
    split; [exact Hloop |].
    split; [congruence |]. split; [congruence |].
    split; [| congruence].
    rewrite Hg', Hg, <- app_assoc. f_equal.
    unfold inked. cbn [map filter snd].
    destruct (isspace letter); reflexivity.
Qed.

(** X14: in free placement the loop always returns, and it paints exactly
    the letters of the text that are not white space, in order, each by
    [show_text] when drawing as text and by [text_path] otherwise; white
    space is never painted. *)
Theorem X14_free_placement_paints_the_ink (L : layout) (i : nat)
    (positions : list ((option R * option R * option R * option R * option R)
                       * string))
    (st : Surface * bounding_box) :
  following L = None ->
  exists st',
    letters_loop L i positions st = Done st' /\
    glyphs (context (fst st'))
    = glyphs (context (fst st))
      ++ map (paint (draw_as_text L)) (inked positions).
Proof.
  intros HL.
  destruct (letters_loop_free_effect L HL positions i st)
    as (st' & Hloop & _ & _ & Hg & _).
  exists st'. auto.
Qed.

(** Letters that continue from the cursor, none of them the first: each
    moves the cursor on by the letter spacing and its own advance. *)
Lemma letters_loop_free_cursor (L : layout) :
  following L = None ->
  forall positions i st,
    i <> 0%nat ->
    Forall (fun p => pos_x p = None /\ pos_y p = None) positions ->
    exists st',
      letters_loop L i positions st = Done st' /\
      cursor_position (fst st') =
        (fst (cursor_position (fst st))
         + sum_R (map (fun l =>
                         letter_spacing L
                         + x_advance (text_extents (font (context (fst st)))
                                                   (Some l)))
                      (map snd positions)),
         snd (cursor_position (fst st))).
Proof.
  intros HL. induction positions as [| [pos letter] rest IH]; intros i st Hi Hxy.
  - exists st. split; [reflexivity |]. unfold sum_R. cbn.
    rewrite Rplus_0_r. destruct (cursor_position (fst st)); reflexivity.
  - destruct pos as [[[[x y] dx] dy] r]. destruct st as [s bb].
    inversion Hxy as [| ? ? [Hx Hy] Hrest]; subst.
    unfold pos_x, pos_y in Hx, Hy. cbn in Hx, Hy. subst x y.
    destruct (letter_step_free_effect L i None None dx dy r letter s bb HL)
      as (s1 & b1 & Hstep & Hf & _ & _ & _ & _ & _ & Hcp).
    destruct (IH (S i) (s1, b1) ltac:(discriminate) Hrest)
      as (st' & Hloop & Hcp').
    exists st'. cbn [letters_loop]. rewrite Hstep. cbn [bind fst] in *.
    split; [exact Hloop |].
    rewrite Hcp', Hcp, Hf. cbn [fst snd map].
    apply Nat.eqb_neq in Hi. rewrite Hi.
    unfold sum_R. cbn [fold_right]. f_equal. ring.
Qed.

(** X15: the pen in free placement.  For a text with at most one x and one
    y coordinate, the cursor ends where the first letter was put (the given
    coordinate, or the cursor where there is none) plus the advances of all
    the letters plus one letter spacing between neighbours; the height of
    the cursor is that of the first letter, and [text_path_width] is not
    touched. *)
Theorem X15_free_placement_pen (L : layout)
    (xl yl dxl dyl rl : list R) (first : string) (others : list string)
    (st : Surface * bounding_box) :
  following L = None ->
  (List.length xl <= 1)%nat ->
  (List.length yl <= 1)%nat ->
  exists st',
    letters_loop L 0 (zip_letters xl yl dxl dyl rl (first :: others)) st
      = Done st' /\
    cursor_position (fst st') =
      (hd (fst (cursor_position (fst st))) xl
       + x_advance (text_extents (font (context (fst st))) (Some first))
       + sum_R (map (fun l =>
                       letter_spacing L
                       + x_advance (text_extents (font (context (fst st)))
                                                 (Some l)))
                    others),
       hd (snd (cursor_position (fst st))) yl) /\
    text_path_width (fst st') = text_path_width (fst st).
Proof.
  intros HL Hxl Hyl. destruct st as [s bb].
  assert (Htx : tl xl = []) by (destruct xl as [| ? [| ? ?]]; cbn in *; auto; lia).
  assert (Hty : tl yl = []) by (destruct yl as [| ? [| ? ?]]; cbn in *; auto; lia).
  cbn [zip_letters letters_loop]. rewrite Htx, Hty.
  destruct (letter_step_free_effect L 0 (hd_error xl) (hd_error yl)
              (hd_error dxl) (hd_error dyl) (hd_error rl) first s bb HL)
    as (s1 & b1 & Hstep & Hf & _ & _ & _ & Htp & _ & Hcp).
  rewrite Hstep. cbn [bind].
  destruct (letters_loop_free_cursor L HL
              (zip_letters [] [] (tl dxl) (tl dyl) (tl rl) others) 1 (s1, b1)
              ltac:(discriminate) (zip_letters_continuing _ _ _ _))
    as (st' & Hloop & Hcp').
  destruct (letters_loop_free_effect L HL
              (zip_letters [] [] (tl dxl) (tl dyl) (tl rl) others) 1 (s1, b1))
    as (st'' & Hloop' & _ & _ & _ & Htp').
  rewrite Hloop in Hloop'. injection Hloop' as <-.
  exists st'. split; [exact Hloop |]. cbn [fst] in *.
  split; [| congruence].
  rewrite Hcp', Hcp, Hf, zip_letters_letters. cbn [fst snd Nat.eqb].
  f_equal.
  - destruct xl; cbn; ring.
  - destruct yl; reflexivity.
Qed.

End WholeLoop.

Section PathLoop.

Context {env : Collaborators}.

Lemma letter_step_path_total (L : layout) (i : nat) (x y dx dy r : option R)
    (letter : string) (s : Surface) (bb : bounding_box)
    (cairo_path : path) (length total : R) :
  following L = Some (cairo_path, length) ->
  path_length cairo_path = Done total ->
  exists s' bb', letter_step L i (x, y, dx, dy, r) letter (s, bb) = Done (s', bb').
Proof.
  intros HL Hlen. unfold letter_step. rewrite HL.
  cbn [cursor_d_position with_cursor_d_position text_path_width context].
  repeat match goal with
  | |- context [point_following_path cairo_path ?w] =>
      let r := fresh "r" in
      let H := fresh "H" in
      destruct (point_following_path_total _ _ w Hlen) as [r H];
      rewrite H; clear H; cbn [bind]
  end.
  destruct r0, r1, r2; try destruct (between _ _ _); eauto.
Qed.

Lemma letters_loop_path_frame (L : layout) (cairo_path : path) (length : R) :
  following L = Some (cairo_path, length) ->
  forall positions i st st',
    letters_loop L i positions st = Done st' ->
    font (context (fst st')) = font (context (fst st)) /\
    saved (context (fst st')) = saved (context (fst st)) /\
    cursor_position (fst st') = cursor_position (fst st) /\
    (exists painted,
       glyphs (context (fst st')) = glyphs (context (fst st)) ++ painted /\
       incl painted (map (paint (draw_as_text L)) (inked positions))) /\
    (i <> 0%nat ->
     text_path_width (fst st') =
       text_path_width (fst st)
       + sum_R (map (fun l =>
                       letter_spacing L
                       + x_advance (text_extents (font (context (fst st)))
                                                 (Some l)))
                    (map snd positions))).
Proof.
  intros HL. induction positions as [| [pos letter] rest IH]; intros i st st' H.
  - cbn in H. injection H as <-.
    split; [reflexivity |]. split; [reflexivity |]. split; [reflexivity |].
    split.
    + exists []. rewrite app_nil_r. split; [reflexivity | apply incl_nil_l].
    + intros _. unfold sum_R. cbn. ring.
  - destruct pos as [[[[x y] dx] dy] r]. destruct st as [s bb].
    cbn [letters_loop] in H.
    destruct (letter_step L i (x, y, dx, dy, r) letter (s, bb))
      as [[s1 b1] |] eqn:Hstep; [| discriminate H].
    cbn [bind] in H.
    destruct (letter_step_path_effect L i x y dx dy r letter s bb
                cairo_path length s1 b1 HL Hstep)
      as (Hf & Hsv & Hg & _ & Hcp & _ & Htp).
    destruct (IH (S i) (s1, b1) st' H)
      as (Hf' & Hsv' & Hcp' & (painted & Hg' & Hincl) & Htp').
    cbn [fst] in *.
    split; [congruence |]. split; [congruence |]. split; [congruence |].
    split.
    + unfold inked in *. cbn [map filter snd].
      destruct Hg as [Hg | [Hsp Hg]].
      * exists painted. split; [congruence |].
        destruct (negb (isspace letter)); [| exact Hincl].
        cbn [map]. apply incl_tl. exact Hincl.
      * exists (paint (draw_as_text L) letter :: painted).
        split; [rewrite Hg', Hg, <- app_assoc; reflexivity |].
        rewrite Hsp. cbn [negb map].
        apply incl_cons; [left; reflexivity | apply incl_tl; exact Hincl].
    + intros Hi. rewrite (Htp' ltac:(discriminate)), Htp, Hf.
      apply Nat.eqb_neq in Hi. rewrite Hi.
      unfold sum_R. cbn [map fold_right snd]. ring.
Qed.

Lemma letters_loop_path_total (L : layout) (cairo_path : path)
    (length total : R) :
  following L = Some (cairo_path, length) ->
  path_length cairo_path = Done total ->
  forall positions i st, exists st', letters_loop L i positions st = Done st'.
Proof.
  intros HL Hlen. induction positions as [| [pos letter] rest IH]; intros i st.
  - exists st. reflexivity.
  - destruct pos as [[[[x y] dx] dy] r]. destruct st as [s bb].
    destruct (letter_step_path_total L i x y dx dy r letter s bb
                cairo_path length total HL Hlen) as (s1 & b1 & Hstep).
    destruct (IH (S i) (s1, b1)) as [st' Hloop].
    exists st'. cbn [letters_loop]. rewrite Hstep. exact Hloop.
Qed.

(** X16: the loop leaves the context as balanced as it found it: when it
    returns, in free placement or along a path, with characters skipped or
    not, the font and the stack of saved fonts are what they were before,
    every [save] having met its [restore]. *)
Theorem X16_save_restore_balance (L : layout) (i : nat)
    (positions : list ((option R * option R * option R * option R * option R)
                       * string))
    (st st' : Surface * bounding_box) :
  letters_loop L i positions st = Done st' ->
  font (context (fst st')) = font (context (fst st)) /\
  saved (context (fst st')) = saved (context (fst st)).
Proof.
  intros H. destruct (following L) as [[cairo_path length] |] eqn:HL.
  - destruct (letters_loop_path_frame L cairo_path length HL positions i st st' H)
      as (Hf & Hsv & _). auto.
  - destruct (letters_loop_free_effect L HL positions i st)
      as (st'' & Hloop & Hf & Hsv & _).
    rewrite H in Hloop. injection Hloop as <-. auto.
Qed.

(** X17: along a path whose length could be taken, the loop never raises;
    it moves [text_path_width] on by the advances of all the letters plus
    one letter spacing between neighbours, whether letters were drawn or
    skipped; it leaves the cursor position alone; and whatever it paints is
    a letter of the text that is not white space. *)
Theorem X17_path_following_loop (L : layout) (cairo_path : path)
    (length total : R)
    (pos : option R * option R * option R * option R * option R)
    (first : string)
    (rest : list ((option R * option R * option R * option R * option R)
                  * string))
    (st : Surface * bounding_box) :
  following L = Some (cairo_path, length) ->
  path_length cairo_path = Done total ->
  exists st',
    letters_loop L 0 ((pos, first) :: rest) st = Done st' /\
    text_path_width (fst st') =
      text_path_width (fst st)
      + x_advance (text_extents (font (context (fst st))) (Some first))
      + sum_R (map (fun l =>
                      letter_spacing L
                      + x_advance (text_extents (font (context (fst st)))
                                                (Some l)))
                   (map snd rest)) /\
    cursor_position (fst st') = cursor_position (fst st) /\
    (exists painted,
       glyphs (context (fst st')) = glyphs (context (fst st)) ++ painted /\
       incl painted
            (map (paint (draw_as_text L)) (inked ((pos, first) :: rest)))).
Proof.
  intros HL Hlen.
  destruct (letters_loop_path_total L cairo_path length total HL Hlen
              ((pos, first) :: rest) 0%nat st) as [st' Hloop].
  exists st'. split; [exact Hloop |].
  destruct (letters_loop_path_frame L cairo_path length HL _ _ _ _ Hloop)
    as (_ & _ & Hcp & Hg & _).
  split; [| split; [exact Hcp | exact Hg]].
  destruct pos as [[[[x y] dx] dy] r]. destruct st as [s bb].
  cbn [letters_loop] in Hloop.
  destruct (letter_step L 0 (x, y, dx, dy, r) first (s, bb))
    as [[s1 b1] |] eqn:Hstep; [| discriminate Hloop].
  cbn [bind] in Hloop.
  destruct (letter_step_path_effect L 0 x y dx dy r first s bb
              cairo_path length s1 b1 HL Hstep)
    as (Hf & _ & _ & _ & _ & _ & Htp).
  destruct (letters_loop_path_frame L cairo_path length HL _ _ _ _ Hloop)
    as (_ & _ & _ & _ & Htp').
  cbn [fst Nat.eqb] in *.
  rewrite (Htp' ltac:(discriminate)), Htp, Hf. ring.
Qed.

End PathLoop.

(** ** Attribute lists *)

Lemma split_not_nil (sep : ascii) (s : string) : split sep s <> [].
Proof.
  destruct s as [| c s]; cbn [split]; [discriminate |].
  destruct (Ascii.eqb c sep); [discriminate |].
  destruct (split sep s); discriminate.
Qed.

Lemma mapM_length {A B : Type} (f : A -> outcome B) (l : list A) :
  forall l', mapM f l = Done l' -> List.length l' = List.length l.
Proof.
  induction l as [| a l IH]; intros l' H; cbn in H.
  - injection H as <-. reflexivity.
  - destruct (f a); [| discriminate]. cbn [bind] in H.
    destruct (mapM f l) as [bs |]; [| discriminate]. cbn [bind] in H.
    injection H as <-. cbn. f_equal. apply IH. reflexivity.
Qed.

Lemma mapM_raises {A B : Type} (f : A -> outcome B) (l : list A) (e : exn) :
  mapM f l = Raise e -> exists a, In a l /\ f a = Raise e.
Proof.
  induction l as [| a l IH]; intros H; cbn in H; [discriminate |].
  destruct (f a) eqn:Ha.
  - cbn [bind] in H. destruct (mapM f l) eqn:Hl; [discriminate |].
    cbn [bind] in H. injection H as ->.
    destruct (IH eq_refl) as (a' & Hin & Ha'). exists a'. split; [right |]; auto.
  - cbn [bind] in H. injection H as ->. exists a. split; [left |]; auto.
Qed.

Lemma mapM_returns {A B : Type} (f : A -> outcome B) (l : list A) :
  (forall a, In a l -> exists b, f a = Done b) ->
  exists l', mapM f l = Done l'.
Proof.
  induction l as [| a l IH]; intros H; cbn; [eauto |].
  destruct (H a (or_introl eq_refl)) as [b ->]. cbn [bind].
  destruct IH as [l' ->]; [intros a' Ha'; apply H; right; exact Ha' |].
  cbn [bind]. eauto.
Qed.

Section Lists.

Context {env : Collaborators}.

(** X18: an attribute that is present never gives an empty list: when
    [length_list] returns, its list is empty exactly when the attribute is
    missing, so a present x, y, dx or dy always decides the cursor of a node
    without text; and the [rotate] list is never empty, so reading its last
    element never raises. *)
Theorem X18_attribute_lists_are_not_empty (surface : Surface) (n : node) :
  (forall key ref l,
     length_list surface n key ref = Done l ->
     (l = [] <-> get n key = None)) /\
  (forall l, rotate_list n = Done l ->
     l <> [] /\ exists r, last_of l = Done r).
Proof.
  split.
  - intros key ref l H. unfold length_list in H.
    destruct (get n key) as [v |].
    + apply mapM_length in H.
      pose proof (split_not_nil " " (strip (normalize v))) as Hne.
      split; [| discriminate].
      intros ->. destruct (split " " (strip (normalize v))); [congruence |].
      discriminate H.
    + injection H as <-. split; reflexivity.
  - intros l H.
    assert (Hne : l <> []).
    { unfold rotate_list in H. destruct (get n "rotate") as [v |].
      - apply mapM_length in H.
        pose proof (split_not_nil " " (strip (normalize v))) as Hne.
        intros ->. destruct (split " " (strip (normalize v))); [congruence |].
        discriminate H.
      - injection H as <-. discriminate. }
    split; [exact Hne |].
    destruct l; [congruence | eexists; reflexivity].
Qed.

(** X19: the only way [rotate_list] fails is a [ValueError], and it fails
    exactly when the attribute is present and one of its tokens is not
    empty and is refused by [float]; empty tokens count as 0. *)
Theorem X19_rotate_list_errors (n : node) :
  (forall e, rotate_list n = Raise e ->
     e = ValueError /\
     exists v tok,
       get n "rotate" = Some v /\
       In tok (split " " (strip (normalize v))) /\
       nonempty tok = true /\ float_of_string tok = None) /\
  (forall v tok,
     get n "rotate" = Some v ->
     In tok (split " " (strip (normalize v))) ->
     nonempty tok = true -> float_of_string tok = None ->
     rotate_list n = Raise ValueError).
Proof.
  split.
  - intros e H. unfold rotate_list in H.
    destruct (get n "rotate") as [v |]; [| discriminate].
    apply mapM_raises in H. destruct H as (tok & Hin & Htok).
    destruct (nonempty tok) eqn:Hne; [| discriminate].
    destruct (float_of_string tok) eqn:Hf; [discriminate |].
    injection Htok as <-. split; [reflexivity |].
    exists v, tok. auto.
  - intros v tok Hget Hin Hne Hf. unfold rotate_list. rewrite Hget.
    destruct (mapM _ _) as [l |] eqn:Hm.
    + exfalso. revert l Hm Hin.
      induction (split " " (strip (normalize v))) as [| a toks IH];
        intros l Hm Hin; [destruct Hin |].
      cbn [mapM] in Hm. destruct Hin as [-> | Hin].
      * rewrite Hne, Hf in Hm. discriminate.
      * destruct (if nonempty a then _ else _); [| discriminate].
        cbn [bind] in Hm.
        destruct (mapM _ toks) eqn:Hrest; [| discriminate].
        apply (IH _ eq_refl Hin).
    + apply mapM_raises in Hm. destruct Hm as (a & _ & Ha).
      destruct (nonempty a); [| discriminate].
      destruct (float_of_string a); [discriminate |].
      injection Ha as <-. reflexivity.
Qed.

End Lists.

(** ** The drawer as a whole *)

Section Drawer.

Context {env : Collaborators}.

Ltac bind_inv H :=
  match type of H with
  | bind ?m _ = Done _ =>
      let E := fresh "E" in
      destruct m eqn:E; cbn [bind] in H; [| discriminate H]
  end.

(** The stages a returning call of [text] went through. *)
Lemma text_stages (surface : Surface) (n : node) (as_text : bool)
    (s' : Surface) (n' : node) :
  text surface n as_text = Done (s', n') ->
  exists h e s1 x y dx dy rot s2 bb follow L bb',
    href_of n = Done h /\
    get_node_text_extents (initial_context_font surface n) n = (e, s1) /\
    length_list s1 n "x" ref_x = Done x /\
    length_list s1 n "y" ref_y = Done y /\
    length_list s1 n "dx" ref_x = Done dx /\
    length_list s1 n "dy" ref_y = Done dy /\
    rotate_list n = Done rot /\
    prepare_path s1 n
      (if nonempty (url_fragment h)
       then lookup_path (url_fragment h) (paths surface) else None)
      (x_bearing e) (x_align L) = Done (s2, bb, follow) /\
    following L = follow /\
    draw_as_text L = as_text /\
    (if str_truthy (node_text n)
     then letters_loop L 0
            (zip_letters x y dx dy rot (letters_of (node_text n))) (s2, bb)
     else Done (place_cursor s2 x y dx dy, bb)) = Done (s', bb') /\
    n' = (if is_valid_bounding_box bb' then store_bounding_box n bb' else n).
Proof.
  intros H. unfold text in H.
  destruct (font_extents _) as [[[[ascent descent] hgt] mxa] mya].
  bind_inv H. bind_inv H.
  destruct (get_node_text_extents (initial_context_font surface n) n)
    as [e s1] eqn:He.
  bind_inv H. bind_inv H. bind_inv H. bind_inv H. bind_inv H. bind_inv H.
  bind_inv H. destruct a7 as [[s2 bb] follow].
  bind_inv H. destruct a7 as [sf bb'].
  exists a, e, s1, a1, a2, a3, a4, a5, s2, bb, follow,
    {| letter_spacing := a0;
       x_align := x_align_of (get n "text-anchor") (ext_width e) (x_bearing e)
                    a0 (node_text n);
       y_align := y_align_of ascent descent mxa mya (y_bearing e)
                    (ext_height e) (get n "display-anchor")
                    (get n "dominant-baseline") (get n "alignment-baseline");
       last_r := a6; following := follow; draw_as_text := as_text |}, bb'.
  do 7 (split; [first [reflexivity | eassumption] |]).
  split; [exact E7 |]. split; [reflexivity |]. split; [reflexivity |].
  destruct (is_valid_bounding_box bb'); injection H as <- <-;
    (split; [exact E8 | reflexivity]).
Qed.


Lemma place_cursor_frame (s : Surface) (x y dx dy : list R) :
  glyphs (context (place_cursor s x y dx dy)) = glyphs (context s) /\
  text_path_width (place_cursor s x y dx dy) = text_path_width s.
Proof. split; reflexivity. Qed.

(** X21: a text that follows no path (its href, or its parent's, names no
    registered path) is placed freely from end to end: when [text] returns,
    the glyphs painted are exactly the letters of the node's text that are
    not white space, in order and in the mode asked for (none for a node
    without text), and [text_path_width] is what it was. *)
Theorem X21_text_without_a_path (surface : Surface) (n : node)
    (as_text : bool) (s' : Surface) (n' : node) (h : string) :
  text surface n as_text = Done (s', n') ->
  href_of n = Done h ->
  nonempty (url_fragment h) = false \/
  lookup_path (url_fragment h) (paths surface) = None ->
  glyphs (context s')
  = glyphs (context surface)
    ++ map (paint as_text)
         (filter (fun l => negb (isspace l)) (letters_of (node_text n))) /\
  text_path_width s' = text_path_width surface.
Proof.
  intros H Hh Hmiss.
  destruct (text_stages _ _ _ _ _ H)
    as (h' & e & s1 & x & y & dx & dy & rot & s2 & bb & follow & L & bb'
        & Hh' & He & _ & _ & _ & _ & _ & Hprep & HL & Hmode & Hrun & _).
  rewrite Hh in Hh'. injection Hh' as <-.
  assert (Hnone : (if nonempty (url_fragment h)
                   then lookup_path (url_fragment h) (paths surface)
                   else None) = None).
  { destruct Hmiss as [-> | ->]; [reflexivity |].
    destruct (nonempty (url_fragment h)); reflexivity. }
  rewrite Hnone in Hprep. cbn [prepare_path] in Hprep.
  injection Hprep as <- <- <-.
  pose proof (get_node_text_extents_undisturbed
                (initial_context_font surface n) n) as Hu.
  rewrite He in Hu. cbn [snd] in Hu.
  destruct Hu as (_ & Hg1 & _ & _ & _ & _ & _ & Htp1 & _).
  destruct (initial_context_font_quiet surface n) as [_ Hg0].
  rewrite Hg0 in Hg1.
  change (text_path_width (initial_context_font surface n))
    with (text_path_width surface) in Htp1.
  destruct (str_truthy (node_text n)) eqn:Htxt.
  - destruct (letters_loop_free_effect L HL
                (zip_letters x y dx dy rot (letters_of (node_text n)))
                0%nat (s1, EMPTY_BOUNDING_BOX))
      as (st' & Hloop & _ & _ & Hg & Htp).
    rewrite Hrun in Hloop. injection Hloop as <-. cbn [fst] in *.
    rewrite Hg, Hg1, Htp, Htp1, Hmode. unfold inked.
    rewrite zip_letters_letters. auto.
  - injection Hrun as <- _.
    destruct (place_cursor_frame s1 x y dx dy) as [Hg Htp].
    rewrite Hg, Hg1, Htp, Htp1.
    assert (Hl : letters_of (node_text n) = []).
    { destruct (node_text n) as [[| c t] |]; try reflexivity.
      discriminate Htxt. }
    rewrite Hl. cbn. rewrite app_nil_r. auto.
Qed.

(** X22: a text with letters that follows a registered path leaves the
    cursor position where it was: along a path only [text_path_width]
    moves. *)
Theorem X22_text_on_a_path_keeps_the_cursor (surface : Surface) (n : node)
    (as_text : bool) (s' : Surface) (n' : node) (h : string)
    (cairo_path : path) :
  text surface n as_text = Done (s', n') ->
  href_of n = Done h ->
  nonempty (url_fragment h) = true ->
  lookup_path (url_fragment h) (paths surface) = Some cairo_path ->
  str_truthy (node_text n) = true ->
  cursor_position s' = cursor_position surface.
Proof.
  intros H Hh Hfrag Hpath Htxt.
  destruct (text_stages _ _ _ _ _ H)
    as (h' & e & s1 & x & y & dx & dy & rot & s2 & bb & follow & L & bb'
        & Hh' & He & _ & _ & _ & _ & _ & Hprep & HL & _ & Hrun & _).
  rewrite Hh in Hh'. injection Hh' as <-.
  rewrite Hfrag, Hpath in Hprep. rewrite Htxt in Hrun.
  destruct (prepare_path_quiet _ _ _ _ _ _ _ _ Hprep) as [Hc2 _].
  assert (Hf : exists length, follow = Some (cairo_path, length)).
  { unfold prepare_path in Hprep.
    destruct (path_length cairo_path); [| discriminate]. cbn [bind] in Hprep.
    destruct (size _ _ _); [| discriminate]. cbn [bind] in Hprep.
    injection Hprep as _ _ <-. eauto. }
  destruct Hf as [length Hf]. rewrite Hf in HL.
  destruct (letters_loop_path_frame L cairo_path length HL _ _ _ _ Hrun)
    as (_ & _ & Hcp & _).
  cbn [fst] in Hcp. rewrite Hcp, Hc2.
  pose proof (get_node_text_extents_undisturbed
                (initial_context_font surface n) n) as Hu.
  rewrite He in Hu. cbn [snd] in Hu.
  destruct Hu as (_ & _ & _ & _ & _ & Hc1 & _). exact Hc1.
Qed.


End Drawer.

Section Returns.

Context {env : Collaborators}.


Lemma length_list_returns (s : Surface) (n : node) (key : string)
    (ref : size_reference) :
  (forall s v r, exists x, size s v r = Done x) ->
  exists l, length_list s n key ref = Done l.
Proof.
  intros Hsize. unfold length_list.
  destruct (get n key) as [v |]; [| eauto].
  apply mapM_returns. intros a _. apply Hsize.
Qed.

Lemma rotate_list_returns (n : node) :
  (forall v tok,
     get n "rotate" = Some v ->
     In tok (split " " (strip (normalize v))) ->
     nonempty tok = true -> float_of_string tok <> None) ->
  exists l r, rotate_list n = Done l /\ last_of l = Done r.
Proof.
  intros Hfloat.
  assert (H : exists l, rotate_list n = Done l).
  { unfold rotate_list. destruct (get n "rotate") as [v |]; [| eauto].
    apply mapM_returns. intros tok Hin.
    destruct (nonempty tok) eqn:Hne; [| eauto].
    specialize (Hfloat v tok eq_refl Hin Hne).
    destruct (float_of_string tok); [eauto | congruence]. }
  destruct H as [l Hl]. exists l.
  assert (Hne : l <> []).
  { unfold rotate_list in Hl. destruct (get n "rotate") as [v |].
    - apply mapM_length in Hl.
      pose proof (split_not_nil " " (strip (normalize v))) as Hs.
      intros ->. destruct (split " " (strip (normalize v))); [congruence |].
      discriminate Hl.
    - injection Hl as <-. discriminate. }
  destruct l as [| a l]; [congruence |]. eexists. split; [exact Hl | reflexivity].
Qed.

Lemma prepare_path_returns (s : Surface) (n : node) (tp : option path)
    (xb xa : R) :
  (forall s v r, exists x, size s v r = Done x) ->
  (forall cp, tp = Some cp -> line_before_move cp = false) ->
  exists s2 bb follow,
    prepare_path s n tp xb xa = Done (s2, bb, follow) /\
    (follow = None \/
     exists cp length total,
       follow = Some (cp, length) /\ path_length cp = Done total).
Proof.
  intros Hsize Hwf. unfold prepare_path. destruct tp as [cp |].
  - destruct (sampler_returns cp 0 0 None (or_intror (Hwf cp eq_refl)))
      as [[total Ht] _].
    fold (path_length cp) in Ht. rewrite Ht. cbn [bind].
    match goal with
    | |- context [size ?a ?b ?c] => destruct (Hsize a b c) as [x ->]
    end.
    cbn [bind]. do 3 eexists. split; [reflexivity |]. right. eauto.
  - do 3 eexists. split; [reflexivity |]. left. reflexivity.
Qed.

(** When nothing [text] calls can fail, [text] returns. *)
Lemma text_returns (surface : Surface) (n : node) (as_text : bool) (h : string) :
  (forall s v r, exists x, size s v r = Done x) ->
  (forall v tok,
     get n "rotate" = Some v ->
     In tok (split " " (strip (normalize v))) ->
     nonempty tok = true -> float_of_string tok <> None) ->
  href_of n = Done h ->
  (forall cp,
     nonempty (url_fragment h) = true ->
     lookup_path (url_fragment h) (paths surface) = Some cp ->
     line_before_move cp = false) ->
  exists s' n', text surface n as_text = Done (s', n').
Proof.
  intros Hsize Hfloat Hh Hwf. unfold text.
  destruct (font_extents _) as [[[[ascent descent] hgt] mxa] mya].
  rewrite Hh. cbn [bind].
  match goal with
  | |- context [size ?a ?b ?c] => destruct (Hsize a b c) as [spacing ->]
  end.
  cbn [bind].
  destruct (get_node_text_extents (initial_context_font surface n) n) as [e s1].
  destruct (length_list_returns s1 n "x" ref_x Hsize) as [x ->].
  destruct (length_list_returns s1 n "y" ref_y Hsize) as [y ->].
  destruct (length_list_returns s1 n "dx" ref_x Hsize) as [dx ->].
  destruct (length_list_returns s1 n "dy" ref_y Hsize) as [dy ->].
  destruct (rotate_list_returns n Hfloat) as (rot & r & -> & Hlast).
  cbn [bind]. rewrite Hlast. cbn [bind].
  match goal with
  | |- context [prepare_path ?s ?n0 ?tp ?xb ?xa] =>
      destruct (prepare_path_returns s n0 tp xb xa Hsize)
        as (s2 & bb & follow & -> & Hfollow)
  end.
  { intros cp Hcp. change (paths (initial_context_font surface n))
      with (paths surface) in Hcp.
    destruct (nonempty (url_fragment h)) eqn:Hne; [| discriminate].
    apply (Hwf cp eq_refl Hcp). }
  cbn [bind].
  match goal with
  | |- context [letters_loop ?L ?i ?ps ?st] =>
      assert (Hloop : exists st', letters_loop L i ps st = Done st')
  end.
  { destruct Hfollow as [-> | (cp & length & total & -> & Ht)].
    - match goal with
      | |- context [letters_loop ?L ?i ?ps ?st] =>
          destruct (letters_loop_free_effect L eq_refl ps i st)
            as (st' & Hl & _)
      end.
      eauto.
    - eapply letters_loop_path_total; [reflexivity | exact Ht]. }
  destruct Hloop as [[sf bb'] Hloop].
  destruct (str_truthy (node_text n)); [rewrite Hloop |]; cbn [bind];
    match goal with
    | |- context [is_valid_bounding_box ?b] =>
        destruct (is_valid_bounding_box b); eauto
    end.
Qed.


End Returns.

(** ** Concrete runs *)

Lemma sample_size_returns :
  forall (s : Surface) (v : option string) (r : size_reference),
    exists x, size (Collaborators := Sample.env) s v r = Done x.
Proof.
  intros s [v |] r; cbn; [destruct (isdigit v) |]; eauto.
Qed.

Lemma X14_free_placement_paints_the_ink_witness :
  exists st',
    letters_loop (env := Sample.env) Run.free_layout 0
      (zip_letters [10] [20] [] [] [0] ["H"; " "; "i"])
      (Sample.surface, EMPTY_BOUNDING_BOX) = Done st' /\
    glyphs (context (fst st'))
    = [] ++ map (paint false)
              (inked (zip_letters [10] [20] [] [] [0] ["H"; " "; "i"])).
Proof.
  apply (X14_free_placement_paints_the_ink (env := Sample.env)
           Run.free_layout 0
           (zip_letters [10] [20] [] [] [0] ["H"; " "; "i"])
           (Sample.surface, EMPTY_BOUNDING_BOX)).
  reflexivity.
Defined.

Lemma X15_free_placement_pen_witness :
  exists st',
    letters_loop (env := Sample.env) Run.free_layout 0
      (zip_letters [10] [20] [] [] [0] ("H" :: ["i"]))
      (Sample.surface, EMPTY_BOUNDING_BOX) = Done st' /\
    cursor_position (fst st') = (10 + 10 + sum_R [1 + 10], 20) /\
    text_path_width (fst st') = 0.
Proof.
  apply (X15_free_placement_pen (env := Sample.env) Run.free_layout
           [10] [20] [] [] [0] "H" ["i"]
           (Sample.surface, EMPTY_BOUNDING_BOX));
    [reflexivity | cbn; lia | cbn; lia].
Defined.

Lemma X16_save_restore_balance_witness :
  exists st',
    letters_loop (env := Sample.env) Run.free_layout 0
      (zip_letters [10] [20] [] [] [0] ["H"; "i"])
      (Sample.surface, EMPTY_BOUNDING_BOX) = Done st' /\
    font (context (fst st')) = Sample.no_font /\
    saved (context (fst st')) = [].
Proof.
  eexists. split; [reflexivity |].
  match goal with
  | |- font (context (fst ?st')) = _ /\ _ =>
      apply (X16_save_restore_balance (env := Sample.env) Run.free_layout 0
               (zip_letters [10] [20] [] [] [0] ["H"; "i"])
               (Sample.surface, EMPTY_BOUNDING_BOX) st' eq_refl)
  end.
Defined.

Lemma X17_path_following_loop_witness :
  exists st',
    letters_loop (env := Sample.env) Run.path_layout 0
      (((None, None, None, None, Some 0), "a")
       :: [((None, None, None, None, None), "b")])
      (Sample.surface, EMPTY_BOUNDING_BOX) = Done st' /\
    text_path_width (fst st') = 0 + 10 + sum_R [1 + 10] /\
    cursor_position (fst st') = (0, 0) /\
    (exists painted,
       glyphs (context (fst st')) = [] ++ painted /\
       incl painted [text_path "a"; text_path "b"]).
Proof.
  apply (X17_path_following_loop (env := Sample.env) Run.path_layout
           Sample.line_path 102 (0 + distance 0 0 100 0)
           (None, None, None, None, Some 0) "a"
           [((None, None, None, None, None), "b")]
           (Sample.surface, EMPTY_BOUNDING_BOX));
    reflexivity.
Defined.

Lemma X18_attribute_lists_are_not_empty_witness :
  ([float_of_digits "5"] = [] <-> get Sample.empty_text "x" = None) /\
  ([0] <> [] /\ exists r, last_of [0] = Done r).
Proof.
  split.
  - apply (proj1 (X18_attribute_lists_are_not_empty (env := Sample.env)
                    Sample.surface Sample.empty_text) "x" ref_x
             [float_of_digits "5"]).
    reflexivity.
  - apply (proj2 (X18_attribute_lists_are_not_empty (env := Sample.env)
                    Sample.surface Sample.empty_text) [0]).
    reflexivity.
Defined.

Lemma X19_rotate_list_errors_witness :
  rotate_list (env := Sample.env) Run.bad_rotate = Raise ValueError.
Proof.
  apply (proj2 (X19_rotate_list_errors (env := Sample.env) Run.bad_rotate)
           "4x" "4x"); try reflexivity.
  left. reflexivity.
Defined.


Lemma X21_text_without_a_path_witness :
  exists s' n',
    text (env := Sample.env) Sample.surface Sample.heavy_text true
      = Done (s', n') /\
    glyphs (context s') = [] ++ [show_text "H"; show_text "i"] /\
    text_path_width s' = 0.
Proof.
  eexists. eexists. split; [reflexivity |].
  match goal with
  | |- glyphs (context ?s) = _ /\ _ =>
      apply (X21_text_without_a_path (env := Sample.env)
               Sample.surface Sample.heavy_text true s _ EmptyString
               eq_refl eq_refl)
  end.
  left. reflexivity.
Defined.

Lemma X22_text_on_a_path_keeps_the_cursor_witness :
  exists s' n',
    text (env := Sample.env) Sample.surface Run.on_curve false = Done (s', n') /\
    cursor_position s' = (0, 0).
Proof.
  destruct (text_returns (env := Sample.env) Sample.surface Run.on_curve false
              "#curve" sample_size_returns)
    as (s' & n' & H).
  - intros v tok Hv. discriminate Hv.
  - reflexivity.
  - intros cp _ Hcp. injection Hcp as <-. reflexivity.
  - exists s', n'. split; [exact H |].
    apply (X22_text_on_a_path_keeps_the_cursor (env := Sample.env)
             Sample.surface Run.on_curve false s' n' "#curve"
             Sample.line_path H); reflexivity.
Defined.


